(** * Graph layout preprocessing: a shallow embedding of [layoutUtils.ts]

    The development embeds the four exported operations of
    [src/layout/layoutUtils.ts]

      - [convertToEdgeMap]          (adjacency builder),
      - [deriveStartNode]           (start node resolver),
      - [getDisconnectedComponents] (component decomposer, with [dfs]),
      - [removeRepeatedEdges]       (edge deduplicator),

    and states the properties of the specification about them.

    Modelling conventions.
      - A string id is a [string]; the default [Array.prototype.sort] order on
        strings is the lexicographic order on code units, [String.le].
      - A JavaScript [Set<string>] is insertion ordered: it is a duplicate-free
        list that grows at its end ([JSSet]).  [Array.from] of a set is that
        list.
      - The object [edgeMap] is enumerated with [Object.keys], so it is an
        association list in key insertion order ([EdgeMap]); [Object.keys]
        moves integer-like keys to the front, and no result depends on the
        order of the keys (see the properties of [deriveStartNode]).  The object
        [idToNodes] is only read by key, so it is a [gmap].  Objects are read
        through their own properties only: ids are not names inherited from
        [Object.prototype].
      - [undefined] is [None]: [arr[0]] on an empty array and [idToNodes[c]] on
        a missing key both evaluate to it.
      - [dfs] recurses on the call stack; its model takes the recursion depth
        it may use as fuel, and termination is a theorem. *)

From Stdlib Require Import Strings.Ascii.
From stdpp Require Import gmap strings list sorting.

(** ** Data model *)

(** [MyGraphNodeType]: identity is [id]; [label] is payload (the optional
    coordinates [x], [y] play no role in this module). *)
Record MyGraphNodeType : Type := mkNode { id : string; label : string }.

(** [MyGraphLinkType]. *)
Record MyGraphLinkType : Type := mkLink { source : string; target : string }.

#[global] Instance MyGraphNodeType_eq_dec : EqDecision MyGraphNodeType.
Proof. solve_decision. Defined.

#[global] Instance MyGraphLinkType_eq_dec : EqDecision MyGraphLinkType.
Proof. solve_decision. Defined.

(** ** [Set<string>] in insertion order *)
Module JSSet.

Definition t : Type := list string.

Definition empty : t := [].

Definition has (x : string) (s : t) : bool := bool_decide (x ∈ s).

Definition add (x : string) (s : t) : t := if has x s then s else s ++ [x].

Definition size (s : t) : nat := length s.

End JSSet.

(** ** The adjacency object *)

(** [EdgeMap]: own keys in insertion order, each with its neighbour set. *)
Definition EdgeMap : Type := list (string * JSSet.t).

(** [edgeMap[k]]. *)
Fixpoint lookup_key (k : string) (m : EdgeMap) : option JSSet.t :=
  match m with
  | [] => None
  | (k', s) :: m' => if decide (k' = k) then Some s else lookup_key k m'
  end.

(** [Object.keys(edgeMap)]. *)
Definition keys (m : EdgeMap) : list string := m.*1.

(** [if (!edgeMap[src]) edgeMap[src] = new Set(); edgeMap[src].add(trg)]. *)
Fixpoint add_edge (src trg : string) (m : EdgeMap) : EdgeMap :=
  match m with
  | [] => [(src, JSSet.add trg JSSet.empty)]
  | (k, s) :: m' =>
      if decide (k = src) then (k, JSSet.add trg s) :: m'
      else (k, s) :: add_edge src trg m'
  end.

(** One iteration of the loop of [convertToEdgeMap]. *)
Definition convert_step (directed : bool) (edgeMap : EdgeMap) (link : MyGraphLinkType) : EdgeMap :=
  let src := source link in
  let trg := target link in
  if directed then add_edge src trg edgeMap
  else add_edge trg src (add_edge src trg edgeMap).

(** [convertToEdgeMap(links, directed)].  The final [Array.from] of each
    neighbour set keeps its insertion order, so it is the identity here. *)
Definition convertToEdgeMap (links : list MyGraphLinkType) (directed : bool) : EdgeMap :=
  fold_left (convert_step directed) links [].

(** The neighbour list of [a], empty when [a] is not a key. *)
Definition neighbours (m : EdgeMap) (a : string) : list string :=
  default [] (lookup_key a m).

(** ** [deriveStartNode] *)

(** [arr.sort()] on an array of strings. *)
Definition sort_ids (l : list string) : list string := merge_sort String.le l.

(** The loop over [Object.keys(edgeMap)]: the state is
    [(nodesWithIn, nodesWithOut)]. *)
Definition degree_step (currentNodes : JSSet.t) (edgeMap : EdgeMap)
    (st : JSSet.t * JSSet.t) (src : string) : JSSet.t * JSSet.t :=
  if JSSet.has src currentNodes then
    (fold_left (λ s trg, JSSet.add trg s) (neighbours edgeMap src) st.1,
     JSSet.add src st.2)
  else st.

(** The loop that fills [candidates]. *)
Definition candidate_step (nodesWithIn nodesWithOut : JSSet.t)
    (candidates : JSSet.t) (node : MyGraphNodeType) : JSSet.t :=
  if negb (JSSet.has (id node) nodesWithIn) && JSSet.has (id node) nodesWithOut
  then JSSet.add (id node) candidates
  else candidates.

Definition deriveStartNode (nodes : list MyGraphNodeType) (edgeMap : EdgeMap) : option string :=
  let currentNodes := fold_left (λ s node, JSSet.add (id node) s) nodes JSSet.empty in
  let currentNodeList := id <$> nodes in
  let degrees := fold_left (degree_step currentNodes edgeMap) (keys edgeMap) (JSSet.empty, JSSet.empty) in
  let nodesWithIn := degrees.1 in
  let nodesWithOut := degrees.2 in
  let candidates := fold_left (candidate_step nodesWithIn nodesWithOut) nodes JSSet.empty in
  if (0 <? JSSet.size candidates)%nat then head (sort_ids candidates)
  else if (JSSet.size nodesWithOut =? 0)%nat then head (sort_ids currentNodeList)
  else head (sort_ids nodesWithOut).

(** ** [getDisconnectedComponents] and [dfs] *)

(** Sequencing of a loop body that may run out of fuel. *)
Fixpoint fold_opt {A S : Type} (f : S → A → option S) (l : list A) (s : S) : option S :=
  match l with
  | [] => Some s
  | x :: l' => match f s x with Some s' => fold_opt f l' s' | None => None end
  end.

(** [dfs(nodeId, edgeMap, seen, collected)]: the state is [(seen, collected)],
    both mutated in place by the source.  [fuel] bounds the recursion depth. *)
Fixpoint dfs (fuel : nat) (edgeMap : EdgeMap) (st : JSSet.t * JSSet.t) (nodeId : string)
    : option (JSSet.t * JSSet.t) :=
  match fuel with
  | O => None
  | S fuel' =>
      if JSSet.has nodeId st.1 then Some st
      else
        let st1 := (JSSet.add nodeId st.1, JSSet.add nodeId st.2) in
        match lookup_key nodeId edgeMap with
        | None => Some st1
        | Some children => fold_opt (dfs fuel' edgeMap) children st1
        end
  end.

(** [idToNodes]: a later node with the same id overwrites an earlier one. *)
Definition idToNodes (nodes : list MyGraphNodeType) : gmap string MyGraphNodeType :=
  fold_left (λ m node, <[id node := node]> m) nodes ∅.

(** [connectedNodeIds]: edge endpoints in first-occurrence order. *)
Definition connectedNodeIds (links : list MyGraphLinkType) : JSSet.t :=
  fold_left (λ s link, JSSet.add (target link) (JSSet.add (source link) s)) links JSSet.empty.

(** [startNode && collected.has(startNode)]: [undefined] and the empty string
    are falsy. *)
Definition start_in (startNode : option string) (collected : JSSet.t) : bool :=
  match startNode with
  | None => false
  | Some s => negb (bool_decide (s = EmptyString)) && JSSet.has s collected
  end.

(** One iteration of the loop over [connectedNodeIds]; the state is
    [(seen, rtn)].  An entry of a component is [idToNodes[c]], which is
    [undefined] for an id without a node. *)
Definition component_step (fuel : nat) (nodeMap : gmap string MyGraphNodeType)
    (edgeMap : EdgeMap) (startNode : option string)
    (st : JSSet.t * list (list (option MyGraphNodeType))) (nodeId : string)
    : option (JSSet.t * list (list (option MyGraphNodeType))) :=
  if JSSet.has nodeId st.1 then Some st
  else
    match dfs fuel edgeMap (st.1, JSSet.empty) nodeId with
    | None => None
    | Some (seen, collected) =>
        let toAdd := (λ c, nodeMap !! c) <$> collected in
        if start_in startNode collected then Some (seen, toAdd :: st.2)
        else Some (seen, st.2 ++ [toAdd])
    end.

Definition getDisconnectedComponents_fuel (fuel : nat) (nodes : list MyGraphNodeType)
    (links : list MyGraphLinkType) (startNode : option string)
    : option (list (list (option MyGraphNodeType))) :=
  let edgeMap := convertToEdgeMap links false in
  snd <$> fold_opt (component_step fuel (idToNodes nodes) edgeMap startNode)
            (connectedNodeIds links) (JSSet.empty, []).

(** The recursion of [dfs] marks a fresh endpoint at every level, so one more
    than the number of endpoints is enough fuel
    (see [getDisconnectedComponents_fuel_enough]). *)
Definition getDisconnectedComponents (nodes : list MyGraphNodeType)
    (links : list MyGraphLinkType) (startNode : option string)
    : list (list (option MyGraphNodeType)) :=
  default [] (getDisconnectedComponents_fuel (S (length (connectedNodeIds links))) nodes links startNode).

(** ** [removeRepeatedEdges] *)

(** [`${link.source}-linkTo-${link.target}`]. *)
Definition key (link : MyGraphLinkType) : string :=
  source link +:+ "-linkTo-" +:+ target link.

(** [`${link.target}-linkTo-${link.source}`]. *)
Definition backKey (link : MyGraphLinkType) : string :=
  target link +:+ "-linkTo-" +:+ source link.

(** One iteration: the state is [(seen, rtn)]. *)
Definition dedupe_step (st : JSSet.t * list MyGraphLinkType) (link : MyGraphLinkType)
    : JSSet.t * list MyGraphLinkType :=
  if JSSet.has (backKey link) st.1 then st
  else (JSSet.add (key link) st.1, st.2 ++ [link]).

Definition removeRepeatedEdges (links : list MyGraphLinkType) : list MyGraphLinkType :=
  (fold_left dedupe_step links (JSSet.empty, [])).2.

(** The mirror of an edge. *)
Definition mirror (e : MyGraphLinkType) : MyGraphLinkType :=
  mkLink (target e) (source e).

(** No character of [s] is a dash. *)
Fixpoint dash_free (s : string) : bool :=
  match s with
  | EmptyString => true
  | String c s' => negb (Ascii.eqb c "-"%char) && dash_free s'
  end.

(** No id of [links] holds a dash. *)
Definition dash_free_links (links : list MyGraphLinkType) : bool :=
  forallb (λ e, dash_free (source e) && dash_free (target e)) links.

(** The keys of [links] are faithful: the key of one edge is the back key of
    another only when the two edges mirror each other.  (Two different pairs
    of ids can be joined into the same string, as ["a" + "b-linkTo-c"] and
    ["a-linkTo-b" + "c"]; ids without dashes never are.) *)
Definition keys_faithful (links : list MyGraphLinkType) : Prop :=
  ∀ e e', e ∈ links → e' ∈ links → key e' = backKey e → e' = mirror e.

(** ** Vocabulary of the start node rules *)

(** [x] is the lexicographically smallest id that satisfies [P]. *)
Definition smallest_in (P : string → Prop) (x : string) : Prop :=
  P x ∧ ∀ y, P y → String.le x y.

(** [r] is the smallest id that satisfies [P], or [None] when none does. *)
Definition least (P : string → Prop) (r : option string) : Prop :=
  match r with
  | Some x => smallest_in P x
  | None => ∀ y, ¬ P y
  end.

(** What [nodesWithOut] holds: the ids of [nodes] that are keys of the
    adjacency object. *)
Definition withOutdegree (nodes : list MyGraphNodeType) (m : EdgeMap) (k : string) : Prop :=
  k ∈ id <$> nodes ∧ k ∈ keys m.

(** What [nodesWithIn] holds: the neighbours of those keys. *)
Definition withIndegree (nodes : list MyGraphNodeType) (m : EdgeMap) (t : string) : Prop :=
  ∃ k, withOutdegree nodes m k ∧ t ∈ neighbours m k.

(** What [candidates] holds. *)
Definition candidate (nodes : list MyGraphNodeType) (m : EdgeMap) (c : string) : Prop :=
  withOutdegree nodes m c ∧ ¬ withIndegree nodes m c.

(** The specification's wording of the same three sets: a key counts only
    with at least one neighbour. *)
Definition withOutdegree_worded (nodes : list MyGraphNodeType) (m : EdgeMap) (k : string) : Prop :=
  k ∈ id <$> nodes ∧ k ∈ keys m ∧ neighbours m k ≠ [].

Definition withIndegree_worded (nodes : list MyGraphNodeType) (m : EdgeMap) (t : string) : Prop :=
  ∃ k, withOutdegree_worded nodes m k ∧ t ∈ neighbours m k.

Definition candidate_worded (nodes : list MyGraphNodeType) (m : EdgeMap) (c : string) : Prop :=
  withOutdegree_worded nodes m c ∧ ¬ withIndegree_worded nodes m c.

(** Every key of the adjacency object has at least one neighbour, as in
    every object built by [convertToEdgeMap]. *)
Definition every_key_has_neighbour (m : EdgeMap) : Prop :=
  ∀ k, k ∈ keys m → neighbours m k ≠ [].

(** Two adjacency objects with the same keys and, key by key, the same
    neighbours, whatever the insertion orders. *)
Definition same_adjacency (m1 m2 : EdgeMap) : Prop :=
  ∀ k, (is_Some (lookup_key k m1) ↔ is_Some (lookup_key k m2))
       ∧ ∀ x, x ∈ neighbours m1 k ↔ x ∈ neighbours m2 k.

(** ** Vocabulary of the component rules *)

(** The loop of [getDisconnectedComponents] reduced to the id sets it
    collects, in the order the traversals are started: no node objects and no
    start node rule. *)
Definition discover_step (fuel : nat) (edgeMap : EdgeMap)
    (st : JSSet.t * list JSSet.t) (nodeId : string) : option (JSSet.t * list JSSet.t) :=
  if JSSet.has nodeId st.1 then Some st
  else
    match dfs fuel edgeMap (st.1, JSSet.empty) nodeId with
    | None => None
    | Some (seen, collected) => Some (seen, st.2 ++ [collected])
    end.

Definition discovered_fuel (fuel : nat) (links : list MyGraphLinkType) : option (list JSSet.t) :=
  snd <$> fold_opt (discover_step fuel (convertToEdgeMap links false))
            (connectedNodeIds links) (JSSet.empty, []).

(** The id sets of the components in discovery order. *)
Definition discovered (links : list MyGraphLinkType) : list JSSet.t :=
  default [] (discovered_fuel (S (length (connectedNodeIds links))) links).

(** [toAdd] for a collected id set. *)
Definition toAdd (nodeMap : gmap string MyGraphNodeType) (collected : JSSet.t)
    : list (option MyGraphNodeType) :=
  (λ c, nodeMap !! c) <$> collected.

(** [rtn.unshift(toAdd)] or [rtn.push(toAdd)]. *)
Definition place (nodeMap : gmap string MyGraphNodeType) (startNode : option string)
    (rtn : list (list (option MyGraphNodeType))) (collected : JSSet.t)
    : list (list (option MyGraphNodeType)) :=
  if start_in startNode collected then toAdd nodeMap collected :: rtn
  else rtn ++ [toAdd nodeMap collected].

(** A traversal state [(seen, collected)] grows into another one: some ids
    that were not seen are added to both sets. *)
Definition grows (st st' : JSSet.t * JSSet.t) : Prop :=
  ∃ new : list string,
    (∀ y, y ∈ new → y ∉ st.1)
    ∧ (∀ y, y ∈ st'.1 ↔ y ∈ st.1 ∨ y ∈ new)
    ∧ (∀ y, y ∈ st'.2 ↔ y ∈ st.2 ∨ y ∈ new).

(** The number of ids of [U] that are not seen yet: the measure that bounds
    the recursion depth of [dfs]. *)
Definition unseen (U : gset string) (seen : JSSet.t) : nat :=
  size (U ∖ list_to_set seen).

(** Undirected connectivity over the edge list: the reflexive, transitive
    closure of "joined by an edge, in either direction". *)
Definition joined (links : list MyGraphLinkType) (a b : string) : Prop :=
  ∃ l, l ∈ links ∧ ((source l = a ∧ target l = b) ∨ (source l = b ∧ target l = a)).

Definition connected (links : list MyGraphLinkType) : relation string :=
  rtc (joined links).

(** [c] is the id set of one undirected connectivity class. *)
Definition is_component (links : list MyGraphLinkType) (c : JSSet.t) : Prop :=
  c ≠ [] ∧ ∀ x, x ∈ c → ∀ y, y ∈ c ↔ connected links x y.

(** The invariant of the loop over the endpoints, on [(seen, components)]:
    the collected id sets are seen, every seen id lies in exactly one of
    them, [seen] is closed under edges, and each set is a connectivity
    class. *)
Definition discovery_invariant (links : list MyGraphLinkType)
    (st : JSSet.t * list JSSet.t) : Prop :=
  (∀ c y, c ∈ st.2 → y ∈ c → y ∈ st.1)
  ∧ (∀ y, y ∈ st.1 →
      ∃ pre c post, st.2 = pre ++ c :: post ∧ y ∈ c ∧ ∀ c', c' ∈ pre ++ post → y ∉ c')
  ∧ (∀ z y, z ∈ st.1 → joined links z y → y ∈ st.1)
  ∧ (∀ c, c ∈ st.2 → is_component links c).

(** The id sets [D] are in discovery order over the endpoint list [ids]: the
    first id of each set is an endpoint, and every endpoint that occurs
    before it lies in an earlier set. *)
Definition discovery_ordered (ids : list string) (D : list JSSet.t) : Prop :=
  ∀ pre c post, D = pre ++ c :: post →
    ∃ x ids1 ids2, head c = Some x ∧ ids = ids1 ++ x :: ids2
                   ∧ ∀ y, y ∈ ids1 → ∃ c', c' ∈ pre ∧ y ∈ c'.

(** ** [getExtraNodes] and [isStartNodeInComponent] *)

(** [getExtraNodes(nodes, links)]: the set [connectedNodeIds] is built by the
    same loop as in [getDisconnectedComponents]. *)
Definition getExtraNodes (nodes : list MyGraphNodeType) (links : list MyGraphLinkType)
    : list MyGraphNodeType :=
  let connected := connectedNodeIds links in
  fold_left (λ rtn node, if JSSet.has (id node) connected then rtn else rtn ++ [node]) nodes [].

(** [isStartNodeInComponent(startNode, nodes)], that is
    [nodes.some(node => node.id === startNode)], on a component as
    [getDisconnectedComponents] returns it: [some] stops at the first match,
    and reading [node.id] of an [undefined] entry throws a [TypeError], which
    is [None]. *)
Fixpoint isStartNodeInComponent (startNode : string) (nodes : list (option MyGraphNodeType))
    : option bool :=
  match nodes with
  | [] => Some false
  | Some node :: nodes' =>
      if bool_decide (id node = startNode) then Some true
      else isStartNodeInComponent startNode nodes'
  | None :: _ => None
  end.

(** ** The extra nodes of [Graph] *)

(** One iteration of the loop over [customNodes] in [Graph]: the state is
    [(seen, extraNodes)]. *)
Definition custom_step (st : JSSet.t * list MyGraphNodeType) (nodeId : string)
    : JSSet.t * list MyGraphNodeType :=
  if JSSet.has nodeId st.1 then st
  else (JSSet.add nodeId st.1, st.2 ++ [mkNode nodeId nodeId]).

(** [extraNodes] of [Graph]: the nodes without edge, then a node for every
    custom id that no node has. *)
Definition extraNodes (nodes : list MyGraphNodeType) (links : list MyGraphLinkType)
    (customNodes : JSSet.t) : list MyGraphNodeType :=
  let extra := getExtraNodes nodes links in
  if (0 <? JSSet.size customNodes)%nat then
    let seen := fold_left (λ s n, JSSet.add (id n) s) nodes JSSet.empty in
    (fold_left custom_step customNodes (seen, extra)).2
  else extra.

(** ** Vocabulary of the further properties *)

(** [new Set(array)]: the elements of [l] in first-occurrence order. *)
Definition first_occurrences (l : list string) : JSSet.t :=
  fold_left (λ s x, JSSet.add x s) l JSSet.empty.

(** What the edge [l] inserts into the neighbour set of [a], in order. *)
Definition inserted (directed : bool) (a : string) (l : MyGraphLinkType) : list string :=
  (if bool_decide (source l = a) then [target l] else [])
  ++ (if negb directed && bool_decide (target l = a) then [source l] else []).

(** Every edge endpoint is the id of a node. *)
Definition endpoints_are_nodes (nodes : list MyGraphNodeType) (links : list MyGraphLinkType)
    : Prop :=
  ∀ x, x ∈ connectedNodeIds links → x ∈ id <$> nodes.

(** No edge of [links] has the key of an earlier edge as its back key. *)
Definition no_earlier_mirror_key (links : list MyGraphLinkType) : Prop :=
  ∀ l1 e l2, links = l1 ++ e :: l2 → backKey e ∉ key <$> l1.

(** ** Sample nodes *)

Definition nA : MyGraphNodeType := mkNode "A" "a".
Definition nB : MyGraphNodeType := mkNode "B" "b".
Definition nC : MyGraphNodeType := mkNode "C" "c".
Definition nD : MyGraphNodeType := mkNode "D" "d".
Definition nE : MyGraphNodeType := mkNode EmptyString "e".

(** * Examples and properties *)

(** ** Evaluation on the examples of the specification *)

Example resolve_chain :
  deriveStartNode [nA; nB; nC] (convertToEdgeMap [mkLink "A" "B"; mkLink "B" "C"] true) = Some "A".
Proof. vm_compute. reflexivity. Qed.

Example resolve_cycle :
  deriveStartNode [nA; nB] (convertToEdgeMap [mkLink "A" "B"; mkLink "B" "A"] true) = Some "A".
Proof. vm_compute. reflexivity. Qed.

Example decompose_two :
  getDisconnectedComponents [nA; nB; nC; nD] [mkLink "A" "B"; mkLink "C" "D"] (Some "D")
  = [[Some nC; Some nD]; [Some nA; Some nB]].
Proof. vm_compute. reflexivity. Qed.

Example dedupe_mirror :
  removeRepeatedEdges [mkLink "A" "B"; mkLink "B" "A"] = [mkLink "A" "B"].
Proof. vm_compute. reflexivity. Qed.

Example decompose_self_loop :
  getDisconnectedComponents [nA] [mkLink "A" "A"] None = [[Some nA]].
Proof. vm_compute. reflexivity. Qed.

(** * Facts about [JSSet] *)

Module JSSetFacts.
Import JSSet.

Lemma has_true x s : has x s = true ↔ x ∈ s.
Proof. unfold has. by rewrite bool_decide_eq_true. Qed.

Lemma has_false x s : has x s = false ↔ x ∉ s.
Proof. unfold has. by rewrite bool_decide_eq_false. Qed.

Lemma elem_of_add y x s : y ∈ add x s ↔ y = x ∨ y ∈ s.
Proof.
  unfold add. destruct (has x s) eqn:E.
  - apply has_true in E. split; [auto | intros [-> | ?]; done].
  - rewrite elem_of_app, list_elem_of_singleton. tauto.
Qed.

Lemma NoDup_add x s : NoDup s → NoDup (add x s).
Proof.
  intros Hs. unfold add. destruct (has x s) eqn:E; [done |].
  apply has_false in E. apply NoDup_app. split_and!; [done | | apply NoDup_singleton].
  intros y Hy ->%list_elem_of_singleton. done.
Qed.

Lemma add_ne_nil x s : add x s ≠ [].
Proof. unfold add. destruct (has x s) eqn:E; [by intros -> | by destruct s]. Qed.

Lemma add_prefix x s : ∃ k, add x s = s ++ k.
Proof.
  unfold add. destruct (has x s); [exists []; by rewrite app_nil_r | by exists [x]].
Qed.

Lemma size_pos_iff s : (0 <? size s)%nat = true ↔ s ≠ [].
Proof. destruct s; simpl; [split; [done | congruence] | split; [congruence | done]]. Qed.

End JSSetFacts.
Import JSSetFacts.

(** * Properties of [removeRepeatedEdges] *)

Section dedupe.

Implicit Types (links pre post : list MyGraphLinkType) (e : MyGraphLinkType).

Lemma key_mirror e : key (mirror e) = backKey e.
Proof. done. Qed.

Lemma backKey_mirror e : backKey (mirror e) = key e.
Proof. done. Qed.

Lemma joined_inj (s1 s2 t1 t2 : string) :
  dash_free s1 = true → dash_free s2 = true →
  s1 +:+ "-linkTo-" +:+ t1 = s2 +:+ "-linkTo-" +:+ t2 → s1 = s2 ∧ t1 = t2.
Proof.
  revert s2. induction s1 as [| c1 s1 IH]; intros [| c2 s2] H1 H2 Heq.
  - split; [done |]. by simplify_eq/=.
  - exfalso. cbn in Heq, H2. injection Heq as Hc _. subst c2. done.
  - exfalso. cbn in Heq, H1. injection Heq as Hc _. subst c1. done.
  - cbn in H1, H2. apply andb_prop in H1 as [_ H1]. apply andb_prop in H2 as [_ H2].
    change (String c1 (s1 +:+ "-linkTo-" +:+ t1) = String c2 (s2 +:+ "-linkTo-" +:+ t2)) in Heq.
    injection Heq as -> Heq. destruct (IH s2 H1 H2 Heq) as [-> ->]. done.
Qed.

(** Without dashes in the ids, the key of one edge is the back key of
    another exactly when the two edges mirror each other. *)
Lemma key_backKey_inj e e' :
  dash_free (source e') = true → dash_free (target e) = true →
  key e' = backKey e → e' = mirror e.
Proof.
  intros H1 H2 Heq. destruct (joined_inj _ _ _ _ H1 H2 Heq) as [Hs Ht].
  destruct e', e; simplify_eq/=. done.
Qed.

(** The loop invariant: [seen] holds the keys of the emitted edges. *)
Lemma dedupe_seen_keys links (st : JSSet.t * list MyGraphLinkType) :
  (∀ k, k ∈ st.1 ↔ k ∈ key <$> st.2) →
  ∀ k, k ∈ (fold_left dedupe_step links st).1 ↔ k ∈ key <$> (fold_left dedupe_step links st).2.
Proof.
  revert st. induction links as [| e links IH]; intros st Hst; [done |].
  cbn [fold_left]. apply IH. intros k. unfold dedupe_step.
  destruct (JSSet.has (backKey e) st.1); [done |]. cbn [fst snd].
  rewrite elem_of_add, fmap_app, elem_of_app, Hst. cbn.
  rewrite list_elem_of_singleton. tauto.
Qed.

(** The decision taken on the last edge of a list. *)
Lemma removeRepeatedEdges_snoc pre e :
  removeRepeatedEdges (pre ++ [e]) =
    if bool_decide (backKey e ∈ key <$> removeRepeatedEdges pre)
    then removeRepeatedEdges pre
    else removeRepeatedEdges pre ++ [e].
Proof.
  unfold removeRepeatedEdges. rewrite fold_left_app. cbn [fold_left].
  pose proof (dedupe_seen_keys pre (JSSet.empty, []) (λ k, reflexivity _) (backKey e)) as Hk.
  unfold dedupe_step at 1. unfold JSSet.has.
  rewrite (bool_decide_ext _ _ Hk). by case_bool_decide.
Qed.

(** Edges are emitted in input order and later edges never retract them. *)
Lemma removeRepeatedEdges_app pre post :
  ∃ rest, removeRepeatedEdges (pre ++ post) = removeRepeatedEdges pre ++ rest.
Proof.
  induction post as [| e post IH] using rev_ind.
  - exists []. by rewrite !app_nil_r.
  - destruct IH as [rest IH]. rewrite app_assoc, removeRepeatedEdges_snoc.
    case_bool_decide; [by exists rest |].
    exists (rest ++ [e]). by rewrite IH, app_assoc.
Qed.

Lemma removeRepeatedEdges_elem_of e links :
  e ∈ removeRepeatedEdges links → e ∈ links.
Proof.
  induction links as [| e' links IH] using rev_ind; [done |].
  rewrite removeRepeatedEdges_snoc, !elem_of_app.
  case_bool_decide; [auto | rewrite elem_of_app; tauto].
Qed.

(** An emitted edge never has its back key among the keys emitted before
    it. *)
Lemma removeRepeatedEdges_split links o1 e o2 :
  removeRepeatedEdges links = o1 ++ e :: o2 → backKey e ∉ key <$> o1.
Proof.
  revert o1 o2. induction links as [| e' links IH] using rev_ind; intros o1 o2.
  - intros Heq. by destruct o1.
  - rewrite removeRepeatedEdges_snoc. case_bool_decide as Hd; [apply IH |].
    destruct o2 as [| x o2 _] using rev_ind.
    + intros [<- <-]%app_inj_tail. done.
    + rewrite app_comm_cons, app_assoc.
      intros [Heq _]%app_inj_tail. by eapply IH.
Qed.

(** Mirror freedom, for every edge list. *)
Lemma removeRepeatedEdges_no_mirror links (a b : string) :
  a ≠ b → mkLink a b ∈ removeRepeatedEdges links → mkLink b a ∉ removeRepeatedEdges links.
Proof.
  intros Hab Hin Hin'.
  assert (∀ x y o1 o2 o3, removeRepeatedEdges links = o1 ++ mkLink x y :: o2 ++ mkLink y x :: o3 → False)
    as Hord.
  { intros x y o1 o2 o3 Heq. rewrite app_comm_cons, app_assoc in Heq.
    apply removeRepeatedEdges_split in Heq. apply Heq.
    rewrite fmap_app, elem_of_app. right. rewrite fmap_cons. apply list_elem_of_here. }
  apply list_elem_of_split in Hin as (o1 & o2 & Heq).
  rewrite Heq in Hin'. apply elem_of_app in Hin' as [Hin' | Hin'].
  - apply list_elem_of_split in Hin' as (p1 & p2 & ->).
    rewrite <- app_assoc in Heq. cbn in Heq. by eapply Hord.
  - apply elem_of_cons in Hin' as [? | Hin']; [by simplify_eq |].
    apply list_elem_of_split in Hin' as (p1 & p2 & ->). by eapply Hord.
Qed.

End dedupe.

Section dedupe_claims.

Implicit Types (links pre post : list MyGraphLinkType) (e : MyGraphLinkType).

Lemma dash_free_links_elem links e :
  dash_free_links links = true → e ∈ links →
  dash_free (source e) = true ∧ dash_free (target e) = true.
Proof.
  unfold dash_free_links. rewrite forallb_forall. intros Hall Hin.
  apply andb_prop, Hall. by apply list_elem_of_In.
Qed.

(** Ids without dashes have faithful keys. *)
Lemma dash_free_links_faithful links : dash_free_links links = true → keys_faithful links.
Proof.
  intros Hdf e e' He He' Hk.
  destruct (dash_free_links_elem _ _ Hdf He) as [_ ?].
  destruct (dash_free_links_elem _ _ Hdf He') as [? _].
  by apply key_backKey_inj.
Qed.

(** With faithful keys, the back key of [e] was recorded exactly when the
    mirror of [e] was emitted. *)
Lemma backKey_recorded_iff links e :
  keys_faithful (links ++ [e]) →
  backKey e ∈ key <$> removeRepeatedEdges links ↔ mirror e ∈ removeRepeatedEdges links.
Proof.
  intros Hf. split.
  - intros (e' & Hk & Hin)%list_elem_of_fmap.
    assert (e' = mirror e) as <-; [| done].
    apply Hf; [apply elem_of_app; right; left | | done].
    apply elem_of_app. left. by apply removeRepeatedEdges_elem_of.
  - intros Hin. rewrite <- key_mirror. by apply list_elem_of_fmap_2.
Qed.

(** C9: [removeRepeatedEdges] is idempotent: running it on its own output
    returns that output unchanged. *)
Theorem removeRepeatedEdges_idempotent links :
  removeRepeatedEdges (removeRepeatedEdges links) = removeRepeatedEdges links.
Proof.
  induction links as [| e links IH] using rev_ind; [done |].
  rewrite removeRepeatedEdges_snoc. case_bool_decide as Hd; [done |].
  rewrite removeRepeatedEdges_snoc, IH. by rewrite bool_decide_eq_false_2.
Qed.

(** C3, as stated, fails: a repeated self-loop is an exact same-direction
    repeat of an emitted edge and is dropped (its back key is its own key);
    and a repeat of an edge that was dropped as a mirror is dropped too. *)
Lemma removeRepeatedEdges_repeat_dropped :
  removeRepeatedEdges [mkLink "A" "A"; mkLink "A" "A"] = [mkLink "A" "A"]
  ∧ removeRepeatedEdges [mkLink "B" "A"; mkLink "A" "B"; mkLink "A" "B"] = [mkLink "B" "A"].
Proof. split; vm_compute; reflexivity. Qed.

(** C3 (amended): the edge [e] that follows [pre] is dropped exactly when its
    back key [target-linkTo-source] is the key recorded for an edge emitted
    before it, and it is appended to the output otherwise.  When the keys are
    faithful (as they are when no id holds a dash), that is exactly when the
    mirror edge [(target, source)] was emitted before it; an exact repeat of
    an emitted edge whose two ends differ is then never dropped. *)
Theorem removeRepeatedEdges_drops_mirrors_only pre e :
  removeRepeatedEdges (pre ++ [e]) =
    (if bool_decide (backKey e ∈ key <$> removeRepeatedEdges pre)
     then removeRepeatedEdges pre
     else removeRepeatedEdges pre ++ [e])
  ∧ (keys_faithful (pre ++ [e]) →
     (removeRepeatedEdges (pre ++ [e]) = removeRepeatedEdges pre
        ↔ mirror e ∈ removeRepeatedEdges pre)
     ∧ (e ∈ removeRepeatedEdges pre → source e ≠ target e →
        removeRepeatedEdges (pre ++ [e]) = removeRepeatedEdges pre ++ [e])).
Proof.
  split; [apply removeRepeatedEdges_snoc |]. intros Hf.
  pose proof (backKey_recorded_iff pre e Hf) as Hiff.
  rewrite removeRepeatedEdges_snoc. split.
  - case_bool_decide as Hd; [tauto |]. split; [| tauto].
    intros Heq. apply (f_equal length) in Heq. rewrite length_app in Heq. simpl in Heq. lia.
  - intros Hin Hne. rewrite bool_decide_eq_false_2; [done |].
    rewrite Hiff. destruct e as [a b]. simpl in Hne.
    by apply (removeRepeatedEdges_no_mirror pre a b).
Qed.

Lemma removeRepeatedEdges_drops_mirrors_only_witness :
  removeRepeatedEdges ([mkLink "A" "B"; mkLink "B" "A"] ++ [mkLink "A" "B"])
  = removeRepeatedEdges [mkLink "A" "B"; mkLink "B" "A"] ++ [mkLink "A" "B"].
Proof.
  apply (removeRepeatedEdges_drops_mirrors_only [mkLink "A" "B"; mkLink "B" "A"] (mkLink "A" "B")).
  - apply dash_free_links_faithful. reflexivity.
  - vm_compute. left.
  - simpl. discriminate.
Defined.

(** C10, as stated, fails on ids that make two different edges share a key:
    [("c", "a-linkTo-b")] occurs before its mirror, yet it is dropped (its back
    key is the key of the first edge) and the mirror is emitted. *)
Lemma removeRepeatedEdges_first_direction_dropped :
  removeRepeatedEdges
    [mkLink "a" "b-linkTo-c"; mkLink "c" "a-linkTo-b"; mkLink "a-linkTo-b" "c"]
  = [mkLink "a" "b-linkTo-c"; mkLink "a-linkTo-b" "c"].
Proof. vm_compute. reflexivity. Qed.

(** C10 (amended): the output is mirror free for every edge list: it never
    holds both [(a, b)] and [(b, a)] with [a ≠ b].  When the keys are
    faithful (as they are when no id holds a dash), the direction that occurs
    first in the input is the one emitted. *)
Theorem removeRepeatedEdges_mirror_free links (a b : string) :
  a ≠ b →
  (mkLink a b ∈ removeRepeatedEdges links → mkLink b a ∉ removeRepeatedEdges links)
  ∧ (keys_faithful links →
     ∀ pre post, links = pre ++ mkLink a b :: post → mkLink b a ∉ pre →
       mkLink a b ∈ removeRepeatedEdges links ∧ mkLink b a ∉ removeRepeatedEdges links).
Proof.
  intros Hab. split; [by apply removeRepeatedEdges_no_mirror |].
  intros Hf pre post -> Hpre.
  assert (mkLink a b ∈ removeRepeatedEdges (pre ++ mkLink a b :: post)) as Hin.
  { rewrite cons_middle, app_assoc.
    destruct (removeRepeatedEdges_app (pre ++ [mkLink a b]) post) as [rest ->].
    apply elem_of_app. left. rewrite removeRepeatedEdges_snoc.
    rewrite bool_decide_eq_false_2; [apply elem_of_app; right; left |].
    rewrite backKey_recorded_iff.
    - intros Hm%removeRepeatedEdges_elem_of. done.
    - intros e e' He He'. apply Hf; rewrite elem_of_app in *; rewrite elem_of_cons.
      + destruct He as [? | ->%list_elem_of_singleton]; auto.
      + destruct He' as [? | ->%list_elem_of_singleton]; auto. }
  split; [done |]. by apply removeRepeatedEdges_no_mirror.
Qed.

Lemma removeRepeatedEdges_mirror_free_witness :
  mkLink "A" "B" ∈ removeRepeatedEdges [mkLink "A" "B"; mkLink "B" "A"; mkLink "A" "B"]
  ∧ mkLink "B" "A" ∉ removeRepeatedEdges [mkLink "A" "B"; mkLink "B" "A"; mkLink "A" "B"].
Proof.
  apply (removeRepeatedEdges_mirror_free _ "A" "B" ltac:(discriminate))
    with (pre := []) (post := [mkLink "B" "A"; mkLink "A" "B"]).
  - apply dash_free_links_faithful. reflexivity.
  - reflexivity.
  - apply not_elem_of_nil.
Defined.

End dedupe_claims.

(** * Properties of [convertToEdgeMap] *)

Section edge_map.

Implicit Types (m : EdgeMap) (links : list MyGraphLinkType) (a b k x : string).

Lemma elem_of_keys k m : k ∈ keys m ↔ is_Some (lookup_key k m).
Proof.
  unfold keys. induction m as [| [k' s] m IH]; cbn.
  - split; [by intros ?%elem_of_nil | by intros [? ?]].
  - rewrite elem_of_cons, IH. case_decide; subst; [by split; eauto |].
    split; [intros [? | ?]; [congruence | done] | auto].
Qed.

Lemma lookup_add_edge k src trg m :
  lookup_key k (add_edge src trg m) =
    if decide (k = src) then Some (JSSet.add trg (neighbours m src)) else lookup_key k m.
Proof.
  unfold neighbours. induction m as [| [k' s] m IH]; cbn.
  - repeat case_decide; by simplify_eq.
  - destruct (decide (k' = src)) as [-> | Hne]; cbn.
    + repeat case_decide; by simplify_eq.
    + rewrite IH. repeat case_decide; by simplify_eq.
Qed.

Lemma neighbours_add_edge x k src trg m :
  x ∈ neighbours (add_edge src trg m) k ↔ (k = src ∧ x = trg) ∨ x ∈ neighbours m k.
Proof.
  unfold neighbours at 1. rewrite lookup_add_edge. case_decide as Hk; cbn.
  - subst k. rewrite elem_of_add. tauto.
  - fold (neighbours m k). tauto.
Qed.

(** The neighbours recorded by one iteration. *)
Lemma neighbours_convert_step directed m (l : MyGraphLinkType) a b :
  b ∈ neighbours (convert_step directed m l) a ↔
    b ∈ neighbours m a
    ∨ (source l = a ∧ target l = b)
    ∨ (directed = false ∧ source l = b ∧ target l = a).
Proof.
  unfold convert_step. destruct directed; rewrite ?neighbours_add_edge; naive_solver.
Qed.

Lemma neighbours_fold_convert directed links m a b :
  b ∈ neighbours (fold_left (convert_step directed) links m) a ↔
    b ∈ neighbours m a
    ∨ ∃ l, l ∈ links ∧
        ((source l = a ∧ target l = b) ∨ (directed = false ∧ source l = b ∧ target l = a)).
Proof.
  revert m. induction links as [| l links IH]; intros m; cbn [fold_left].
  - split; [auto | intros [? | (l & ?%elem_of_nil & _)]; done].
  - rewrite IH, neighbours_convert_step. split.
    + intros [[? | ?] | (l' & ? & ?)]; [by left | right; exists l | right; exists l'];
        (split; [set_solver | done]).
    + intros [? | (l' & [-> | ?]%elem_of_cons & ?)]; [tauto | tauto |].
      right. by exists l'.
Qed.

(** The neighbour relation built by [convertToEdgeMap]. *)
Lemma neighbours_convertToEdgeMap links directed a b :
  b ∈ neighbours (convertToEdgeMap links directed) a ↔
    ∃ l, l ∈ links ∧
      ((source l = a ∧ target l = b) ∨ (directed = false ∧ source l = b ∧ target l = a)).
Proof.
  unfold convertToEdgeMap. rewrite neighbours_fold_convert. unfold neighbours. cbn.
  split; [intros [?%elem_of_nil | ?]; done | auto].
Qed.

(** No key of a built adjacency object has an empty neighbour set. *)
Lemma convertToEdgeMap_every_key_has_neighbour links directed :
  every_key_has_neighbour (convertToEdgeMap links directed).
Proof.
  unfold convertToEdgeMap.
  assert (every_key_has_neighbour []) as Hnil by (by intros k ?%elem_of_nil).
  revert Hnil. generalize (@nil (string * JSSet.t)).
  assert (∀ src trg m, every_key_has_neighbour m → every_key_has_neighbour (add_edge src trg m))
    as Hadd.
  { intros src trg m Hm k [s Hk]%elem_of_keys. unfold neighbours.
    rewrite lookup_add_edge in Hk |- *. case_decide; cbn; [apply add_ne_nil |].
    rewrite Hk. cbn. intros ->. apply (Hm k); [apply elem_of_keys; by eexists |].
    unfold neighbours. by rewrite Hk. }
  induction links as [| l links IH]; intros m Hm; cbn [fold_left]; [done |].
  apply IH. unfold convert_step. destruct directed; auto.
Qed.

(** C5: an adjacency map built with [directed = false] is symmetric: the
    neighbour list of [a] holds [b] exactly when that of [b] holds [a]. *)
Theorem convertToEdgeMap_undirected_symmetric links a b :
  b ∈ neighbours (convertToEdgeMap links false) a
  ↔ a ∈ neighbours (convertToEdgeMap links false) b.
Proof. rewrite !neighbours_convertToEdgeMap. naive_solver. Qed.

End edge_map.

(** * Properties of [deriveStartNode] *)

Section start_node.

Implicit Types (nodes : list MyGraphNodeType) (m : EdgeMap) (x y k : string).

(** ** Sorting and taking the first element *)

Lemma least_unique (P : string → Prop) r1 r2 : least P r1 → least P r2 → r1 = r2.
Proof.
  destruct r1 as [x |], r2 as [y |]; cbn.
  - intros [Hx Hminx] [Hy Hminy]. f_equal. apply (anti_symm String.le); auto.
  - intros [Hx _] Hnone. by destruct (Hnone x).
  - intros Hnone [Hy _]. by destruct (Hnone y).
  - done.
Qed.

Lemma least_ext (P Q : string → Prop) r : (∀ x, P x ↔ Q x) → least P r → least Q r.
Proof.
  intros HPQ. destruct r as [x |]; cbn.
  - intros [Hx Hmin]. split; [by apply HPQ |]. intros y Hy. by apply Hmin, HPQ.
  - intros Hnone y Hy. by apply (Hnone y), HPQ.
Qed.

(** [arr.sort(); arr[0]] is the smallest element of [arr], [undefined] on an
    empty array. *)
Lemma head_sort_ids_least (l : list string) : least (λ x, x ∈ l) (head (sort_ids l)).
Proof.
  unfold sort_ids.
  pose proof (merge_sort_Permutation String.le l) as Hperm.
  pose proof (StronglySorted_merge_sort String.le l) as Hsorted.
  destruct (merge_sort String.le l) as [| x l']; cbn.
  - intros y Hy. rewrite <- Hperm in Hy. by apply elem_of_nil in Hy.
  - split; [rewrite <- Hperm; left |].
    intros y Hy. rewrite <- Hperm in Hy. apply elem_of_cons in Hy as [-> | Hy]; [done |].
    apply StronglySorted_inv in Hsorted as [_ Hall].
    by eapply Forall_forall in Hall.
Qed.

Lemma head_sort_ids_is_Some (l : list string) : l ≠ [] → is_Some (head (sort_ids l)).
Proof.
  intros Hl. pose proof (head_sort_ids_least l) as Hleast.
  destruct (head (sort_ids l)); [by eexists |].
  destruct l as [| x l]; [done |]. destruct (Hleast x). left.
Qed.

(** ** The three loops *)

Lemma elem_of_fold_add {A} (f : A → string) (l : list A) (s : JSSet.t) x :
  x ∈ fold_left (λ s a, JSSet.add (f a) s) l s ↔ x ∈ s ∨ x ∈ f <$> l.
Proof.
  revert s. induction l as [| a l IH]; intros s; cbn [fold_left].
  - rewrite fmap_nil, elem_of_nil. tauto.
  - rewrite IH, elem_of_add, fmap_cons, elem_of_cons. tauto.
Qed.

Lemma degree_fold_out (cn : JSSet.t) m (ks : list string) (st : JSSet.t * JSSet.t) x :
  x ∈ (fold_left (degree_step cn m) ks st).2 ↔ x ∈ st.2 ∨ (x ∈ ks ∧ x ∈ cn).
Proof.
  revert st. induction ks as [| k ks IH]; intros st; cbn [fold_left].
  - rewrite elem_of_nil. tauto.
  - rewrite IH, elem_of_cons. unfold degree_step.
    destruct (JSSet.has k cn) eqn:Hk; cbn [fst snd].
    + apply has_true in Hk. rewrite elem_of_add. naive_solver.
    + apply has_false in Hk. naive_solver.
Qed.

Lemma degree_fold_in (cn : JSSet.t) m (ks : list string) (st : JSSet.t * JSSet.t) x :
  x ∈ (fold_left (degree_step cn m) ks st).1 ↔
    x ∈ st.1 ∨ ∃ k, k ∈ ks ∧ k ∈ cn ∧ x ∈ neighbours m k.
Proof.
  revert st. induction ks as [| k ks IH]; intros st; cbn [fold_left].
  - split; [auto | intros [? | (k & ?%elem_of_nil & _)]; done].
  - rewrite IH. unfold degree_step.
    destruct (JSSet.has k cn) eqn:Hk; cbn [fst snd].
    + apply has_true in Hk.
      rewrite (elem_of_fold_add (λ t : string, t)), list_fmap_id. split.
      * intros [[? | ?] | (k' & ? & ? & ?)]; [by left | right; exists k | right; exists k'];
          (split_and!; [set_solver | done | done]).
      * intros [? | (k' & [-> | ?]%elem_of_cons & ? & ?)]; [tauto | tauto |].
        right. by exists k'.
    + apply has_false in Hk. split.
      * intros [? | (k' & ? & ? & ?)]; [by left |]. right. exists k'. set_solver.
      * intros [? | (k' & [-> | ?]%elem_of_cons & ? & ?)]; [tauto | done |].
        right. by exists k'.
Qed.

Lemma candidate_fold (win wout : JSSet.t) nodes (c : JSSet.t) x :
  x ∈ fold_left (candidate_step win wout) nodes c ↔
    x ∈ c ∨ (x ∈ (id <$> nodes) ∧ (x ∉ win) ∧ x ∈ wout).
Proof.
  revert c. induction nodes as [| n nodes IH]; intros c; cbn [fold_left].
  - rewrite fmap_nil, elem_of_nil. tauto.
  - rewrite IH, fmap_cons, elem_of_cons. unfold candidate_step.
    destruct (JSSet.has (id n) win) eqn:Hin; [apply has_true in Hin | apply has_false in Hin];
      (destruct (JSSet.has (id n) wout) eqn:Hout;
         [apply has_true in Hout | apply has_false in Hout]);
      cbn [negb andb]; rewrite ?elem_of_add; naive_solver.
Qed.

(** ** The result of [deriveStartNode] *)

(** The three sets the source computes are the three sets of the rules. *)
Lemma deriveStartNode_sets nodes m :
  let currentNodes := fold_left (λ s node, JSSet.add (id node) s) nodes JSSet.empty in
  let degrees := fold_left (degree_step currentNodes m) (keys m) (JSSet.empty, JSSet.empty) in
  let candidates := fold_left (candidate_step degrees.1 degrees.2) nodes JSSet.empty in
  (∀ x, x ∈ degrees.2 ↔ withOutdegree nodes m x)
  ∧ (∀ x, x ∈ degrees.1 ↔ withIndegree nodes m x)
  ∧ (∀ x, x ∈ candidates ↔ candidate nodes m x).
Proof.
  intros cn deg cand.
  assert (∀ x, x ∈ cn ↔ x ∈ id <$> nodes) as Hcn.
  { intros x. unfold cn. rewrite elem_of_fold_add. unfold JSSet.empty.
    rewrite elem_of_nil. tauto. }
  assert (∀ x, x ∈ deg.2 ↔ withOutdegree nodes m x) as Hout.
  { intros x. unfold deg. rewrite degree_fold_out, Hcn. cbn. unfold JSSet.empty, withOutdegree.
    rewrite elem_of_nil. tauto. }
  assert (∀ x, x ∈ deg.1 ↔ withIndegree nodes m x) as Hin.
  { intros x. unfold deg. rewrite degree_fold_in. cbn. unfold JSSet.empty, withIndegree, withOutdegree.
    rewrite elem_of_nil. split.
    - intros [[] | (k & ? & ?%Hcn & ?)]. by exists k.
    - intros (k & [? ?] & ?). right. exists k. by rewrite Hcn. }
  split_and!; [done | done |].
  intros x. unfold cand. rewrite candidate_fold, Hout, Hin. unfold JSSet.empty, candidate.
  rewrite elem_of_nil. unfold withOutdegree. tauto.
Qed.

(** The branch [deriveStartNode] takes, and the set it sorts there. *)
Lemma deriveStartNode_cases nodes m :
  (∃ cand, cand ≠ [] ∧ (∀ x, x ∈ cand ↔ candidate nodes m x)
      ∧ deriveStartNode nodes m = head (sort_ids cand))
  ∨ ((∀ x, ¬ candidate nodes m x) ∧ (∀ x, ¬ withOutdegree nodes m x)
      ∧ deriveStartNode nodes m = head (sort_ids (id <$> nodes)))
  ∨ ((∀ x, ¬ candidate nodes m x)
      ∧ ∃ out, out ≠ [] ∧ (∀ x, x ∈ out ↔ withOutdegree nodes m x)
          ∧ deriveStartNode nodes m = head (sort_ids out)).
Proof.
  destruct (deriveStartNode_sets nodes m) as (Hout & Hin & Hcand).
  unfold deriveStartNode. cbv zeta in *.
  set (cn := fold_left _ nodes JSSet.empty) in *.
  set (deg := fold_left (degree_step cn m) (keys m) _) in *.
  set (cand := fold_left (candidate_step _ _) nodes _) in *.
  destruct cand as [| c cand']; cbn [JSSet.size length Nat.ltb Nat.leb].
  - right. assert (∀ x, ¬ candidate nodes m x) as Hno.
    { intros x Hx%Hcand. by apply elem_of_nil in Hx. }
    destruct deg.2 as [| k out'] eqn:Hdeg; cbn [length Nat.eqb].
    + left. split_and!; [done | | done].
      intros x Hx%Hout. by apply elem_of_nil in Hx.
    + right. split; [done |]. exists (k :: out'). split_and!; [done | done | done].
  - left. exists (c :: cand'). split_and!; [done | done | done].
Qed.

(** The rules as one relation between the input and the result. *)
Lemma deriveStartNode_least nodes m :
  let r := deriveStartNode nodes m in
  ((∃ c, candidate nodes m c) ∧ is_Some r ∧ least (candidate nodes m) r)
  ∨ ((∀ c, ¬ candidate nodes m c) ∧ (∀ k, ¬ withOutdegree nodes m k)
      ∧ least (λ i, i ∈ id <$> nodes) r)
  ∨ ((∀ c, ¬ candidate nodes m c) ∧ (∃ k, withOutdegree nodes m k)
      ∧ is_Some r ∧ least (withOutdegree nodes m) r).
Proof.
  intros r. unfold r.
  destruct (deriveStartNode_cases nodes m)
    as [(cand & Hne & Hcand & ->) | [(Hno & Hnone & ->) | (Hno & out & Hne & Hout & ->)]].
  - left. split_and!.
    + destruct cand as [| c ?]; [done |]. exists c. apply Hcand. left.
    + by apply head_sort_ids_is_Some.
    + eapply least_ext; [apply Hcand | apply head_sort_ids_least].
  - right. left. split_and!; [done | done | apply head_sort_ids_least].
  - right. right. split_and!; [done | | |].
    + destruct out as [| k ?]; [done |]. exists k. apply Hout. left.
    + by apply head_sort_ids_is_Some.
    + eapply least_ext; [apply Hout | apply head_sort_ids_least].
Qed.

(** C1, as stated, fails on a key without neighbours: with nodes [A], [B]
    and the adjacency object [{B: []}] no id has a neighbour, so the worded
    rules ask for the smallest of all ids, ["A"]; the source puts the key
    ["B"] in [nodesWithOut] and returns it. *)
Lemma deriveStartNode_key_without_neighbours :
  (∀ c, ¬ candidate_worded [nA; nB] [("B", [])] c)
  ∧ (∀ k, ¬ withOutdegree_worded [nA; nB] [("B", [])] k)
  ∧ smallest_in (λ i, i ∈ id <$> [nA; nB]) "A"
  ∧ deriveStartNode [nA; nB] [("B", [])] = Some "B".
Proof.
  assert (∀ k, ¬ withOutdegree_worded [nA; nB] [("B", [])] k) as Hout.
  { intros k (_ & Hk & Hne). cbn in Hk.
    apply list_elem_of_singleton in Hk as ->. by apply Hne. }
  split_and!; [by intros c [?%Hout _] | done | | by vm_compute].
  split; [left |]. intros y Hy. cbn in Hy.
  apply elem_of_cons in Hy as [-> | Hy]; [done |].
  apply list_elem_of_singleton in Hy as ->. by vm_compute.
Qed.

(** The rules [deriveStartNode] follows, for every adjacency object: it
    returns the smallest candidate when there is one, a candidate being an id
    of the node list that is a key of the adjacency object (with or without
    neighbours) and is no neighbour of such a key; otherwise, when no id of
    the node list is a key, the smallest of all node ids ([undefined] only for
    an empty node list); otherwise the smallest id of the node list that is a
    key. *)
Lemma deriveStartNode_rules nodes m :
  ((∃ c, candidate nodes m c) →
     ∃ x, deriveStartNode nodes m = Some x ∧ smallest_in (candidate nodes m) x)
  ∧ ((¬ ∃ c, candidate nodes m c) → (¬ ∃ k, withOutdegree nodes m k) →
       match deriveStartNode nodes m with
       | Some x => smallest_in (λ i, i ∈ id <$> nodes) x
       | None => nodes = []
       end)
  ∧ ((¬ ∃ c, candidate nodes m c) → (∃ k, withOutdegree nodes m k) →
       ∃ x, deriveStartNode nodes m = Some x ∧ smallest_in (withOutdegree nodes m) x).
Proof.
  destruct (deriveStartNode_least nodes m)
    as [(Hc & [x Hx] & Hl) | [(Hno & Hnone & Hl) | (Hno & Hk & [x Hx] & Hl)]];
    cbv zeta in *; split_and!.
  - intros _. exists x. by rewrite Hx in *.
  - intros []. done.
  - intros []. done.
  - intros [c Hc]. by destruct (Hno c).
  - intros _ _. destruct (deriveStartNode nodes m) as [x |]; [done |].
    destruct nodes as [| n nodes]; [done |]. destruct (Hl (id n)). left.
  - intros _ [k Hk]. by destruct (Hnone k).
  - intros [c Hc]. by destruct (Hno c).
  - intros _ []. done.
  - intros _ _. exists x. by rewrite Hx in *.
Qed.

Lemma smallest_in_ext (P Q : string → Prop) x :
  (∀ y, P y ↔ Q y) → smallest_in P x → smallest_in Q x.
Proof. intros HPQ [Hx Hmin]. split; [by apply HPQ |]. intros y Hy. by apply Hmin, HPQ. Qed.

(** When every key has a neighbour, the sets of the source are the sets the
    specification words. *)
Lemma worded_sets nodes m :
  every_key_has_neighbour m →
  (∀ k, withOutdegree nodes m k ↔ withOutdegree_worded nodes m k)
  ∧ (∀ t, withIndegree nodes m t ↔ withIndegree_worded nodes m t)
  ∧ (∀ c, candidate nodes m c ↔ candidate_worded nodes m c).
Proof.
  intros Hm.
  assert (∀ k, withOutdegree nodes m k ↔ withOutdegree_worded nodes m k) as Hout.
  { intros k. unfold withOutdegree, withOutdegree_worded. split; [| tauto].
    intros [? ?]. split_and!; [done | done | by apply Hm]. }
  assert (∀ t, withIndegree nodes m t ↔ withIndegree_worded nodes m t) as Hin.
  { intros t. unfold withIndegree, withIndegree_worded.
    split; intros (k & ? & ?); exists k; (split; [by apply Hout | done]). }
  split_and!; [done | done |].
  intros c. unfold candidate, candidate_worded. by rewrite Hout, Hin.
Qed.

(** C1 (amended): for every node list and every adjacency map in which each
    key has at least one neighbour (every map [convertToEdgeMap] builds is
    one), [deriveStartNode] returns the smallest candidate when there is one,
    a candidate being an id of the node list that is a key with a neighbour
    and is no neighbour of such a key; otherwise, when no id of the node list
    has an outgoing edge, the smallest of all node ids; otherwise the
    smallest id of the node list with an outgoing edge. *)
Theorem deriveStartNode_worded_rules nodes m :
  every_key_has_neighbour m →
  ((∃ c, candidate_worded nodes m c) →
     ∃ x, deriveStartNode nodes m = Some x ∧ smallest_in (candidate_worded nodes m) x)
  ∧ ((¬ ∃ c, candidate_worded nodes m c) → (¬ ∃ k, withOutdegree_worded nodes m k) →
       match deriveStartNode nodes m with
       | Some x => smallest_in (λ i, i ∈ id <$> nodes) x
       | None => nodes = []
       end)
  ∧ ((¬ ∃ c, candidate_worded nodes m c) → (∃ k, withOutdegree_worded nodes m k) →
       ∃ x, deriveStartNode nodes m = Some x
            ∧ smallest_in (withOutdegree_worded nodes m) x).
Proof.
  intros Hm. destruct (worded_sets nodes m Hm) as (Hout & _ & Hcand).
  destruct (deriveStartNode_rules nodes m) as (H1 & H2 & H3). split_and!.
  - intros [c Hc%Hcand]. destruct H1 as (x & ? & ?); [by exists c |].
    exists x. split; [done |]. by eapply smallest_in_ext.
  - intros Hnc Hnk. apply H2.
    + intros [c Hc%Hcand]. apply Hnc. by exists c.
    + intros [k Hk%Hout]. apply Hnk. by exists k.
  - intros Hnc [k Hk%Hout]. destruct H3 as (x & ? & ?); [| by exists k |].
    + intros [c Hc%Hcand]. apply Hnc. by exists c.
    + exists x. split; [done |]. by eapply smallest_in_ext.
Qed.

Lemma deriveStartNode_worded_rules_witness :
  ∃ x, deriveStartNode [nA; nB; nC] (convertToEdgeMap [mkLink "A" "B"; mkLink "B" "C"] true)
       = Some x
       ∧ smallest_in
           (candidate_worded [nA; nB; nC]
              (convertToEdgeMap [mkLink "A" "B"; mkLink "B" "C"] true)) x.
Proof.
  apply (proj1 (deriveStartNode_worded_rules [nA; nB; nC]
                  (convertToEdgeMap [mkLink "A" "B"; mkLink "B" "C"] true)
                  (convertToEdgeMap_every_key_has_neighbour _ true))).
  exists "A". split.
  - split_and!; [left | left | by vm_compute].
  - intros (k & (_ & Hk & _) & Hx). vm_compute in Hk.
    apply elem_of_cons in Hk as [-> | Hk].
    + vm_compute in Hx. by apply list_elem_of_singleton in Hx.
    + apply list_elem_of_singleton in Hk as ->.
      vm_compute in Hx. by apply list_elem_of_singleton in Hx.
Defined.

Lemma deriveStartNode_nil m : deriveStartNode [] m = None.
Proof.
  assert (∀ k, ¬ withOutdegree [] m k) as Hnone.
  { intros k [Hk%elem_of_nil _]. done. }
  destruct (deriveStartNode_least [] m)
    as [([c [Hc _]] & _) | [(_ & _ & Hl) | (_ & [k Hk] & _)]]; cbv zeta in *.
  - by destruct (Hnone c).
  - destruct (deriveStartNode [] m) as [x |]; [| done].
    destruct Hl as [Hx%elem_of_nil _]. done.
  - by destruct (Hnone k).
Qed.

(** C7: [deriveStartNode] is defined on the empty node list: whatever the
    adjacency object, no exception path is taken and the result is
    [undefined], the value that stands for no node: the start node test of
    [getDisconnectedComponents] treats it as it treats the empty string. *)
Theorem deriveStartNode_no_nodes m :
  deriveStartNode [] m = None
  ∧ ∀ collected, start_in (deriveStartNode [] m) collected = start_in (Some EmptyString) collected.
Proof. rewrite deriveStartNode_nil. split; [done |]. by intros collected. Qed.

(** C8: the result depends on the set of node ids and on the neighbour sets
    only: permuting the node list and building the same adjacency in another
    insertion order (of keys or of neighbours) gives the same id. *)
Theorem deriveStartNode_order_independent nodes1 nodes2 m1 m2 :
  nodes1 ≡ₚ nodes2 → same_adjacency m1 m2 →
  deriveStartNode nodes1 m1 = deriveStartNode nodes2 m2.
Proof.
  intros Hperm Hadj.
  assert (∀ x, x ∈ id <$> nodes1 ↔ x ∈ id <$> nodes2) as Hids.
  { intros x. by rewrite Hperm. }
  assert (∀ k, withOutdegree nodes1 m1 k ↔ withOutdegree nodes2 m2 k) as Hout.
  { intros k. unfold withOutdegree. rewrite Hids, !elem_of_keys.
    destruct (Hadj k) as [-> _]. done. }
  assert (∀ t, withIndegree nodes1 m1 t ↔ withIndegree nodes2 m2 t) as Hin.
  { intros t. unfold withIndegree.
    split; intros (k & Hk & Ht); exists k; destruct (Hadj k) as [_ Hn];
      (split; [by apply Hout | by apply Hn]). }
  assert (∀ c, candidate nodes1 m1 c ↔ candidate nodes2 m2 c) as Hcand.
  { intros c. unfold candidate. by rewrite Hout, Hin. }
  destruct (deriveStartNode_least nodes1 m1)
    as [([c1 Hc1] & _ & Hl1) | [(Hno1 & Hnone1 & Hl1) | (Hno1 & [k1 Hk1] & _ & Hl1)]];
    destruct (deriveStartNode_least nodes2 m2)
    as [([c2 Hc2] & _ & Hl2) | [(Hno2 & Hnone2 & Hl2) | (Hno2 & [k2 Hk2] & _ & Hl2)]];
    cbv zeta in *.
  - eapply least_unique; [apply (least_ext _ _ _ Hcand), Hl1 | done].
  - destruct (Hno2 c1). by apply Hcand.
  - destruct (Hno2 c1). by apply Hcand.
  - destruct (Hno1 c2). by apply Hcand.
  - eapply least_unique; [apply (least_ext _ _ _ Hids), Hl1 | done].
  - destruct (Hnone1 k2). by apply Hout.
  - destruct (Hno1 c2). by apply Hcand.
  - destruct (Hnone2 k1). by apply Hout.
  - eapply least_unique; [apply (least_ext _ _ _ Hout), Hl1 | done].
Qed.

Lemma deriveStartNode_order_independent_witness :
  deriveStartNode [nA; nB] [("A", ["B"; "C"]); ("B", ["A"])]
  = deriveStartNode [nB; nA] [("B", ["A"]); ("A", ["C"; "B"])].
Proof.
  apply deriveStartNode_order_independent.
  - apply perm_swap.
  - intros k. unfold neighbours. cbn.
    destruct (decide ("A" = k)) as [<- | ?]; [| destruct (decide ("B" = k)) as [<- | ?]].
    + rewrite decide_False by done.
      split; [done |]. intros x. cbn. rewrite !elem_of_cons. tauto.
    + done.
    + done.
Defined.

End start_node.

(** * Properties of [dfs] and [getDisconnectedComponents] *)

Section traversal.

Implicit Types (m : EdgeMap) (st : JSSet.t * JSSet.t) (x y : string).

(** ** Loops with fuel *)

Lemma fold_opt_mono {A S} (f g : S → A → option S) :
  (∀ s a r, f s a = Some r → g s a = Some r) →
  ∀ l s r, fold_opt f l s = Some r → fold_opt g l s = Some r.
Proof.
  intros Hfg l. induction l as [| a l IH]; intros s r; cbn; [done |].
  destruct (f s a) as [s' |] eqn:Hf; [| done].
  rewrite (Hfg _ _ _ Hf). apply IH.
Qed.

Lemma fold_opt_invariant {A S} (f : S → A → option S) (R : relation S) :
  Reflexive R → Transitive R →
  (∀ s a r, f s a = Some r → R s r) →
  ∀ l s r, fold_opt f l s = Some r → R s r.
Proof.
  intros ? ? Hf l. induction l as [| a l IH]; intros s r; cbn.
  - by intros [= ->].
  - destruct (f s a) as [s' |] eqn:Hfs; [| done].
    intros Hr. etrans; [by eapply Hf | by apply IH].
Qed.

(** More fuel never changes a result. *)
Lemma dfs_fuel_mono fuel fuel' m st x r :
  dfs fuel m st x = Some r → fuel ≤ fuel' → dfs fuel' m st x = Some r.
Proof.
  revert fuel' st x r. induction fuel as [| fuel IH]; intros fuel' st x r; [done |].
  destruct fuel' as [| fuel']; [lia |]. cbn.
  destruct (JSSet.has x st.1); [done |].
  destruct (lookup_key x m) as [children |]; [| done].
  intros Hr Hle. eapply fold_opt_mono; [| done].
  intros s a r' Hr'. apply (IH fuel'); [done | lia].
Qed.

(** ** What a traversal adds *)

#[local] Instance grows_refl : Reflexive grows.
Proof.
  intros st. exists []. split_and!; intros y; rewrite ?elem_of_nil; tauto.
Qed.

#[local] Instance grows_trans : Transitive grows.
Proof.
  intros st1 st2 st3 (n1 & Hn1 & Hs1 & Hc1) (n2 & Hn2 & Hs2 & Hc2).
  exists (n1 ++ n2). split_and!.
  - intros y [Hy | Hy]%elem_of_app; [by apply Hn1 |].
    intros Hin. apply (Hn2 y Hy), Hs1. by left.
  - intros y. rewrite Hs2, Hs1, elem_of_app. tauto.
  - intros y. rewrite Hc2, Hc1, elem_of_app. tauto.
Qed.

Lemma grows_seen st st' y : grows st st' → y ∈ st.1 → y ∈ st'.1.
Proof. intros (n & _ & Hs & _) Hy. apply Hs. by left. Qed.

Lemma dfs_grows fuel m st x r :
  dfs fuel m st x = Some r → grows st r ∧ x ∈ r.1.
Proof.
  revert st x r. induction fuel as [| fuel IH]; intros st x r; [done |]. cbn.
  destruct (JSSet.has x st.1) eqn:Hx.
  { intros [= <-]. split; [done | by apply has_true]. }
  apply has_false in Hx.
  assert (grows st (JSSet.add x st.1, JSSet.add x st.2)) as Hg1.
  { exists [x]. cbn. split_and!; intros y; rewrite ?elem_of_add, list_elem_of_singleton;
      [by intros -> | tauto | tauto]. }
  destruct (lookup_key x m) as [children |].
  - intros Hr. assert (grows (JSSet.add x st.1, JSSet.add x st.2) r) as Hg2.
    { eapply (fold_opt_invariant (dfs fuel m) grows); [apply _ | apply _ | | done].
      intros s a r' Hr'. by destruct (IH _ _ _ Hr'). }
    split; [by etrans |]. eapply grows_seen; [done |]. cbn. apply elem_of_add. by left.
  - intros [= <-]. split; [done |]. cbn. apply elem_of_add. by left.
Qed.

(** ** Termination *)

Section termination.

(** [U] holds every id the adjacency object mentions as a neighbour. *)
Context (U : gset string) (m : EdgeMap).
Hypothesis neighbours_in_U : ∀ k c, c ∈ neighbours m k → c ∈ U.

Lemma unseen_grows st st' : grows st st' → unseen U st'.1 ≤ unseen U st.1.
Proof.
  intros Hg. apply (subseteq_size (C := gset string)). intros y.
  rewrite !elem_of_difference, !elem_of_list_to_set.
  intros [? Hy]. split; [done |]. intros Hin. apply Hy. by eapply grows_seen.
Qed.

Lemma unseen_add x seen : x ∈ U → x ∉ seen → unseen U (JSSet.add x seen) < unseen U seen.
Proof.
  intros HU Hx. apply (subset_size (C := gset string)). split.
  - intros y. rewrite !elem_of_difference, !elem_of_list_to_set, elem_of_add. tauto.
  - intros Hsub. specialize (Hsub x).
    rewrite !elem_of_difference, !elem_of_list_to_set, elem_of_add in Hsub.
    destruct Hsub as [_ []]; [done |]. by left.
Qed.

(** Every level of the recursion marks an unseen id of [U]: a call returns
    as soon as the fuel exceeds their number. *)
Lemma dfs_terminates fuel st x :
  x ∈ U → unseen U st.1 < fuel → is_Some (dfs fuel m st x).
Proof.
  revert st x. induction fuel as [| fuel IH]; intros st x HU Hlt; [lia |]. cbn.
  destruct (JSSet.has x st.1) eqn:Hx; [done |]. apply has_false in Hx.
  destruct (lookup_key x m) as [children |] eqn:Hch; [| done].
  assert (∀ c, c ∈ children → c ∈ U) as Hsub.
  { intros c Hc. apply (neighbours_in_U x). unfold neighbours. by rewrite Hch. }
  pose proof (unseen_add x st.1 HU Hx) as Hdec.
  assert (unseen U (JSSet.add x st.1, JSSet.add x st.2).1 < fuel) as Hlt1 by (cbn; lia).
  clear Hch Hdec Hlt Hx. revert Hlt1. generalize (JSSet.add x st.1, JSSet.add x st.2).
  induction children as [| c children IHc]; intros st1 Hlt1; cbn; [done |].
  destruct (IH st1 c) as [r Hr]; [apply Hsub; left | done |]. rewrite Hr.
  apply IHc.
  - intros c' Hc'. apply Hsub. by right.
  - apply dfs_grows in Hr as [Hg _]. apply unseen_grows in Hg. lia.
Qed.

End termination.

(** ** The endpoints and the adjacency object of an edge list *)

Lemma elem_of_fold_endpoints (links : list MyGraphLinkType) (s : JSSet.t) x :
  x ∈ fold_left (λ s link, JSSet.add (target link) (JSSet.add (source link) s)) links s ↔
    x ∈ s ∨ ∃ l, l ∈ links ∧ (x = source l ∨ x = target l).
Proof.
  revert s. induction links as [| l links IH]; intros s; cbn [fold_left].
  - split; [auto | intros [? | (l & ?%elem_of_nil & _)]; done].
  - rewrite IH, !elem_of_add. split.
    + intros [[? | [? | ?]] | (l' & ? & ?)]; [right; exists l | right; exists l | by left |
        right; exists l']; (split; [set_solver | tauto]).
    + intros [? | (l' & [-> | ?]%elem_of_cons & ?)]; [tauto | tauto |].
      right. by exists l'.
Qed.

Lemma elem_of_connectedNodeIds (links : list MyGraphLinkType) x :
  x ∈ connectedNodeIds links ↔ ∃ l, l ∈ links ∧ (x = source l ∨ x = target l).
Proof.
  unfold connectedNodeIds. rewrite elem_of_fold_endpoints. unfold JSSet.empty.
  rewrite elem_of_nil. tauto.
Qed.

Lemma NoDup_connectedNodeIds (links : list MyGraphLinkType) : NoDup (connectedNodeIds links).
Proof.
  unfold connectedNodeIds. generalize (NoDup_nil_2 (A := string)). unfold JSSet.empty.
  generalize (@nil string). induction links as [| l links IH]; intros s Hs; cbn [fold_left]; [done |].
  by apply IH, NoDup_add, NoDup_add.
Qed.

(** The undirected adjacency object relates exactly the ids joined by an
    edge. *)
Lemma neighbours_joined (links : list MyGraphLinkType) a b :
  b ∈ neighbours (convertToEdgeMap links false) a ↔ joined links a b.
Proof. rewrite neighbours_convertToEdgeMap. unfold joined. naive_solver. Qed.

Lemma neighbours_endpoint (links : list MyGraphLinkType) k c :
  c ∈ neighbours (convertToEdgeMap links false) k →
  c ∈ (list_to_set (connectedNodeIds links) : gset string).
Proof.
  rewrite neighbours_joined, elem_of_list_to_set, elem_of_connectedNodeIds.
  intros (l & ? & [[? ?] | [? ?]]); exists l; auto.
Qed.

(** ** The loop over the endpoints *)

Lemma discover_step_fuel_mono fuel fuel' m (st r : JSSet.t * list JSSet.t) x :
  discover_step fuel m st x = Some r → fuel ≤ fuel' → discover_step fuel' m st x = Some r.
Proof.
  unfold discover_step. destruct (JSSet.has x st.1); [done |].
  destruct (dfs fuel m (st.1, JSSet.empty) x) as [r' |] eqn:Hd; [| done].
  intros Hr Hle. by rewrite (dfs_fuel_mono _ _ _ _ _ _ Hd Hle).
Qed.

Lemma discover_terminates fuel (links : list MyGraphLinkType) ids (st : JSSet.t * list JSSet.t) :
  length (connectedNodeIds links) < fuel →
  (∀ x, x ∈ ids → x ∈ connectedNodeIds links) →
  is_Some (fold_opt (discover_step fuel (convertToEdgeMap links false)) ids st).
Proof.
  intros Hfuel. revert st. induction ids as [| x ids IH]; intros st Hsub; cbn; [done |].
  assert (is_Some (discover_step fuel (convertToEdgeMap links false) st x)) as [r ->].
  { unfold discover_step. destruct (JSSet.has x st.1); [done |].
    assert (is_Some (dfs fuel (convertToEdgeMap links false) (st.1, JSSet.empty) x))
      as [[seen col] ->]; [| done].
    apply (dfs_terminates (list_to_set (connectedNodeIds links)) _ (neighbours_endpoint links)).
    - apply elem_of_list_to_set, Hsub. left.
    - unfold unseen. cbn.
      rewrite <- (size_list_to_set (C := gset string) _ (NoDup_connectedNodeIds links)) in Hfuel.
      eapply Nat.le_lt_trans; [| done].
      apply (subseteq_size (C := gset string)), subseteq_difference_l. done. }
  apply IH. intros y Hy. apply Hsub. by right.
Qed.

(** The fuel of [discovered] is enough, and any larger fuel gives the same
    id sets. *)
Lemma discovered_fuel_enough (links : list MyGraphLinkType) k :
  discovered_fuel (S (length (connectedNodeIds links)) + k) links = Some (discovered links).
Proof.
  unfold discovered, discovered_fuel.
  destruct (discover_terminates (S (length (connectedNodeIds links))) links
              (connectedNodeIds links) (JSSet.empty, [])) as [r Hr]; [lia | done |].
  rewrite Hr. cbn.
  erewrite fold_opt_mono; [done | | done].
  intros s a r' Hr'. eapply discover_step_fuel_mono; [done | lia].
Qed.

(** The loop of [getDisconnectedComponents] is the discovery loop followed
    by the placement of each id set. *)
Lemma component_fold fuel nm m start ids (seen : JSSet.t) (D : list JSSet.t) rtn0 :
  fold_opt (component_step fuel nm m start) ids (seen, fold_left (place nm start) D rtn0) =
    (λ r, (r.1, fold_left (place nm start) r.2 rtn0)) <$> fold_opt (discover_step fuel m) ids (seen, D).
Proof.
  revert seen D. induction ids as [| x ids IH]; intros seen D; cbn; [done |].
  unfold component_step, discover_step. cbn [fst snd].
  destruct (JSSet.has x seen); [apply IH |].
  destruct (dfs fuel m (seen, JSSet.empty) x) as [[seen' col] |]; [| done].
  rewrite <- IH, fold_left_app. cbn [fold_left]. unfold place at 3, toAdd.
  by destruct (start_in start col).
Qed.

Lemma getDisconnectedComponents_fuel_discovered fuel nodes links start :
  getDisconnectedComponents_fuel fuel nodes links start =
    (λ D, fold_left (place (idToNodes nodes) start) D []) <$> discovered_fuel fuel links.
Proof.
  unfold getDisconnectedComponents_fuel, discovered_fuel.
  rewrite (component_fold _ _ _ _ _ _ [] []).
  by destruct (fold_opt _ _ _).
Qed.

Lemma getDisconnectedComponents_fuel_enough nodes links start k :
  getDisconnectedComponents_fuel (S (length (connectedNodeIds links)) + k) nodes links start =
    Some (getDisconnectedComponents nodes links start).
Proof.
  unfold getDisconnectedComponents.
  rewrite !getDisconnectedComponents_fuel_discovered.
  pose proof (discovered_fuel_enough links 0) as H0. rewrite Nat.add_0_r in H0.
  by rewrite discovered_fuel_enough, H0.
Qed.

Lemma getDisconnectedComponents_discovered nodes links start :
  getDisconnectedComponents nodes links start =
    fold_left (place (idToNodes nodes) start) (discovered links) [].
Proof.
  pose proof (getDisconnectedComponents_fuel_enough nodes links start 0) as H.
  rewrite getDisconnectedComponents_fuel_discovered, discovered_fuel_enough in H.
  by injection H.
Qed.

(** ** What a traversal collects *)

Lemma dfs_fold_grows fuel m (cs : list string) st r :
  fold_opt (dfs fuel m) cs st = Some r → grows st r.
Proof.
  apply (fold_opt_invariant (dfs fuel m) grows); [apply _ | apply _ |].
  intros s a r' Hr'. by destruct (dfs_grows _ _ _ _ _ Hr').
Qed.

(** Every id a traversal marks has all its neighbours marked on return. *)
Lemma dfs_closed fuel m st x r :
  dfs fuel m st x = Some r →
  ∀ z y, z ∈ r.1 → z ∉ st.1 → y ∈ neighbours m z → y ∈ r.1.
Proof.
  revert st x r. induction fuel as [| fuel IH]; intros st x r; [done |]. cbn.
  destruct (JSSet.has x st.1) eqn:Hx.
  { intros [= <-] z y Hz Hnz. done. }
  assert (∀ cs s r0, fold_opt (dfs fuel m) cs s = Some r0 →
            (∀ c, c ∈ cs → c ∈ r0.1)
            ∧ (∀ z y, z ∈ r0.1 → z ∉ s.1 → y ∈ neighbours m z → y ∈ r0.1)) as Hfold.
  { induction cs as [| a cs IHcs]; intros s r0; cbn.
    - intros [= <-]. split; [by intros c ?%elem_of_nil | done].
    - destruct (dfs fuel m s a) as [s' |] eqn:Hd; [| done]. intros Hf.
      destruct (IHcs _ _ Hf) as [Hc Hcl].
      destruct (dfs_grows _ _ _ _ _ Hd) as [_ Ha].
      pose proof (dfs_fold_grows _ _ _ _ _ Hf) as Hg. split.
      + intros c [-> | ?]%elem_of_cons; [by eapply grows_seen | auto].
      + intros z y Hz Hnz Hy. destruct (decide (z ∈ s'.1)) as [Hin | Hnin].
        * eapply grows_seen; [done |]. by eapply IH.
        * by eapply Hcl. }
  destruct (lookup_key x m) as [children |] eqn:Hch.
  - intros Hr. destruct (Hfold _ _ _ Hr) as [Hc Hcl]. intros z y Hz Hnz Hy.
    destruct (decide (z = x)) as [-> | Hne].
    + apply Hc. unfold neighbours in Hy. by rewrite Hch in Hy.
    + eapply Hcl; [done | | done]. cbn. rewrite elem_of_add. tauto.
  - intros [= <-] z y Hz Hnz Hy. cbn in Hz. apply elem_of_add in Hz as [-> | ?]; [| done].
    unfold neighbours in Hy. rewrite Hch in Hy. by apply elem_of_nil in Hy.
Qed.

(** Every id a traversal marks is reached from its root along neighbours. *)
Lemma dfs_reach fuel m st x r :
  dfs fuel m st x = Some r →
  ∀ z, z ∈ r.1 → z ∉ st.1 → rtc (λ a b, b ∈ neighbours m a) x z.
Proof.
  revert st x r. induction fuel as [| fuel IH]; intros st x r; [done |]. cbn.
  destruct (JSSet.has x st.1) eqn:Hx.
  { intros [= <-] z Hz Hnz. done. }
  assert (∀ cs s r0, fold_opt (dfs fuel m) cs s = Some r0 →
            ∀ z, z ∈ r0.1 → z ∉ s.1 →
              ∃ c, c ∈ cs ∧ rtc (λ a b, b ∈ neighbours m a) c z) as Hfold.
  { induction cs as [| a cs IHcs]; intros s r0; cbn.
    - by intros [= <-] z Hz Hnz.
    - destruct (dfs fuel m s a) as [s' |] eqn:Hd; [| done]. intros Hf z Hz Hnz.
      destruct (decide (z ∈ s'.1)) as [Hin | Hnin].
      + exists a. split; [left |]. by eapply IH.
      + destruct (IHcs _ _ Hf z Hz Hnin) as (c & Hc & Hrtc). exists c. split; [by right | done]. }
  destruct (lookup_key x m) as [children |] eqn:Hch.
  - intros Hr z Hz Hnz. destruct (decide (z = x)) as [-> | Hne]; [done |].
    destruct (Hfold _ _ _ Hr z Hz) as (c & Hc & Hrtc).
    { cbn. rewrite elem_of_add. tauto. }
    eapply rtc_l; [| done]. cbn. unfold neighbours. by rewrite Hch.
  - intros [= <-] z Hz Hnz. cbn in Hz. apply elem_of_add in Hz as [-> | ?]; done.
Qed.

End traversal.

(** ** The components of an edge list *)

Section components.

Context (links : list MyGraphLinkType).

Implicit Types (x y z : string) (c : JSSet.t) (st : JSSet.t * list JSSet.t).

Lemma joined_sym x y : joined links x y → joined links y x.
Proof. intros (l & ? & ?). exists l. tauto. Qed.

Lemma connected_sym x y : connected links x y → connected links y x.
Proof.
  induction 1 as [| x y z Hxy _ IH]; [done |].
  eapply rtc_r; [done | by apply joined_sym].
Qed.

Lemma discover_step_invariant fuel st x r :
  discovery_invariant links st →
  discover_step fuel (convertToEdgeMap links false) st x = Some r →
  discovery_invariant links r ∧ x ∈ r.1 ∧ (∀ y, y ∈ st.1 → y ∈ r.1).
Proof.
  intros (Hsub & Hpart & Hclosed & Hcomp). unfold discover_step.
  destruct (JSSet.has x st.1) eqn:Hx.
  { intros [= <-]. split; [done |]. split; [by apply has_true | done]. }
  apply has_false in Hx.
  destruct (dfs fuel _ (st.1, JSSet.empty) x) as [[seen' col] |] eqn:Hd; [| done].
  intros [= <-]. destruct (dfs_grows _ _ _ _ _ Hd) as [(new & Hnew & Hs & Hc) Hxin].
  cbn [fst snd] in *.
  assert (∀ y, y ∈ col ↔ y ∈ seen' ∧ y ∉ st.1) as Hcol.
  { intros y. rewrite Hc, Hs. unfold JSSet.empty. rewrite elem_of_nil. split.
    - intros [[] | Hy]. split; [by right | by apply Hnew].
    - intros [[? | ?] ?]; [done | by right]. }
  assert (∀ z y, z ∈ seen' → joined links z y → y ∈ seen') as Hclosed'.
  { intros z y Hz Hj. destruct (decide (z ∈ st.1)) as [Hin | Hnin].
    - apply Hs. left. by eapply Hclosed.
    - eapply (dfs_closed _ _ _ _ _ Hd z y); [done | done | by apply neighbours_joined]. }
  assert (∀ y, y ∈ col ↔ connected links x y) as Hclass.
  { intros y. split.
    - intros [Hy Hny]%Hcol. eapply rtc_subrel; [| by eapply (dfs_reach _ _ _ _ _ Hd)].
      intros a b Hab. by apply neighbours_joined.
    - revert y. apply (rtc_ind_r (λ y, y ∈ col)); [by apply Hcol |].
      intros y z _ Hyz IH.
      apply Hcol in IH as [Hy Hny]. apply Hcol. split; [by eapply Hclosed' |].
      intros Hz. apply Hny. eapply Hclosed; [done | by apply joined_sym]. }
  split_and!; [| done | intros y Hy; apply Hs; by left].
  split_and!; cbn [fst snd].
  - intros c y [Hc0 | ->%list_elem_of_singleton]%elem_of_app Hy.
    + apply Hs. left. by eapply Hsub.
    + by apply Hcol.
  - intros y Hy. destruct (decide (y ∈ st.1)) as [Hin | Hnin].
    + destruct (Hpart y Hin) as (pre & c & post & Heq & Hyc & Hothers).
      exists pre, c, (post ++ [col]). split; [by rewrite Heq, <- app_assoc |].
      split; [done |]. intros c'. rewrite app_assoc, elem_of_app.
      intros [? | ->%list_elem_of_singleton]; [auto |]. rewrite Hcol. tauto.
    + exists st.2, col, []. rewrite app_nil_r. split; [done |].
      split; [by apply Hcol |]. intros c' Hc' Hyc'. apply Hnin. by eapply Hsub.
  - done.
  - intros c [? | ->%list_elem_of_singleton]%elem_of_app; [auto |]. split.
    + intros ->. by apply (elem_of_nil x), Hclass.
    + intros z Hz y. rewrite Hclass. apply Hclass in Hz. split; intros Hy.
      * etrans; [by apply connected_sym | done].
      * by etrans.
Qed.

Lemma discover_fold_invariant fuel ids st r :
  discovery_invariant links st →
  fold_opt (discover_step fuel (convertToEdgeMap links false)) ids st = Some r →
  discovery_invariant links r ∧ (∀ x, x ∈ ids → x ∈ r.1) ∧ (∀ y, y ∈ st.1 → y ∈ r.1).
Proof.
  revert st. induction ids as [| x ids IH]; intros st Hinv; cbn.
  - intros [= <-]. split_and!; [done | by intros x ?%elem_of_nil | done].
  - destruct (discover_step fuel _ st x) as [s' |] eqn:Hstep; [| done]. intros Hr.
    destruct (discover_step_invariant _ _ _ _ Hinv Hstep) as (Hinv' & Hx & Hmono).
    destruct (IH _ Hinv' Hr) as (Hinv'' & Hids & Hmono').
    split_and!; [done | | auto].
    intros y [-> | ?]%elem_of_cons; auto.
Qed.

(** The id sets [discovered] returns partition the endpoints into the
    connectivity classes. *)
Lemma discovered_invariant :
  ∃ seen, discovery_invariant links (seen, discovered links)
          ∧ ∀ x, x ∈ connectedNodeIds links → x ∈ seen.
Proof.
  pose proof (discovered_fuel_enough links 0) as Hd. unfold discovered_fuel in Hd.
  destruct (fold_opt _ (connectedNodeIds links) (JSSet.empty, [])) as [[seen D] |] eqn:Hf; [| done].
  cbn in Hd. injection Hd as <-. exists seen.
  apply discover_fold_invariant in Hf as (Hinv & Hids & _); [done |].
  split_and!; cbn; unfold JSSet.empty.
  - by intros c y ?%elem_of_nil.
  - by intros y ?%elem_of_nil.
  - by intros z y ?%elem_of_nil.
  - by intros c ?%elem_of_nil.
Qed.

Lemma discovered_is_component c : c ∈ discovered links → is_component links c.
Proof. destruct discovered_invariant as (seen & (_ & _ & _ & Hcomp) & _). apply Hcomp. Qed.

Lemma discovered_split x :
  x ∈ connectedNodeIds links →
  ∃ pre c post, discovered links = pre ++ c :: post ∧ x ∈ c ∧ ∀ c', c' ∈ pre ++ post → x ∉ c'.
Proof.
  destruct discovered_invariant as (seen & (_ & Hpart & _) & Hids).
  intros Hx. by apply Hpart, Hids.
Qed.

(** ** Discovery order *)

Lemma fold_opt_prefix {A} (f : JSSet.t * JSSet.t → A → option (JSSet.t * JSSet.t)) :
  (∀ s a r, f s a = Some r → s.2 `prefix_of` r.2) →
  ∀ l s r, fold_opt f l s = Some r → s.2 `prefix_of` r.2.
Proof.
  intros Hf. apply (fold_opt_invariant f (λ a b, a.2 `prefix_of` b.2)); [| | done].
  - by intros a.
  - intros a b c ? ?. by etrans.
Qed.

Lemma dfs_collected_prefix fuel m (st r : JSSet.t * JSSet.t) x :
  dfs fuel m st x = Some r → st.2 `prefix_of` r.2.
Proof.
  revert st x r. induction fuel as [| fuel IH]; intros st x r; [done |]. cbn.
  destruct (JSSet.has x st.1); [by intros [= <-] |].
  assert (st.2 `prefix_of` JSSet.add x st.2) as Hpre by apply add_prefix.
  destruct (lookup_key x m) as [children |]; [| by intros [= <-]].
  intros Hr. etrans; [done |]. apply (fold_opt_prefix (dfs fuel m) IH _ _ _ Hr).
Qed.

(** A traversal collects its root first. *)
Lemma dfs_root_first fuel m (seen seen' col : JSSet.t) x :
  x ∉ seen → dfs fuel m (seen, JSSet.empty) x = Some (seen', col) → head col = Some x.
Proof.
  intros Hx Hd. destruct fuel as [| fuel]; [done |]. cbn in Hd.
  rewrite (proj2 (has_false x seen) Hx) in Hd.
  assert (JSSet.add x JSSet.empty = [x]) as Hadd.
  { unfold JSSet.add. by rewrite (proj2 (has_false x JSSet.empty) (not_elem_of_nil x)). }
  rewrite Hadd in Hd.
  assert ([x] `prefix_of` col) as [k ->]; [| done].
  destruct (lookup_key x m) as [children |]; [| by injection Hd as _ <-].
  apply (fold_opt_prefix (dfs fuel m) (λ s a r, dfs_collected_prefix fuel m s r a) _ _ _ Hd).
Qed.

Lemma discover_fold_ordered fuel rest :
  ∀ done st r,
    discovery_invariant links st → (∀ y, y ∈ done → y ∈ st.1) →
    discovery_ordered done st.2 →
    fold_opt (discover_step fuel (convertToEdgeMap links false)) rest st = Some r →
    discovery_ordered (done ++ rest) r.2.
Proof.
  induction rest as [| x rest IH]; intros done st r Hinv Hdone Hord; cbn.
  - intros [= <-]. by rewrite app_nil_r.
  - destruct (discover_step fuel _ st x) as [s' |] eqn:Hstep; [| done]. intros Hr.
    destruct (discover_step_invariant _ _ _ _ Hinv Hstep) as (Hinv' & Hx & Hmono).
    rewrite cons_middle, app_assoc. apply (IH (done ++ [x]) s' r); [done | | | done].
    { intros y [? | ->%list_elem_of_singleton]%elem_of_app; auto. }
    assert (∀ D, discovery_ordered done D → discovery_ordered (done ++ [x]) D) as Hext.
    { intros D HD pre c post Heq. destruct (HD pre c post Heq) as (x0 & i1 & i2 & ? & -> & ?).
      exists x0, i1, (i2 ++ [x]). by rewrite <- app_assoc. }
    unfold discover_step in Hstep. destruct (JSSet.has x st.1) eqn:Hhas.
    { injection Hstep as <-. by apply Hext. }
    apply has_false in Hhas.
    destruct (dfs fuel _ (st.1, JSSet.empty) x) as [[seen' col] |] eqn:Hd; [| done].
    injection Hstep as <-. cbn [snd]. intros pre c post Heq.
    destruct post as [| z post _] using rev_ind.
    + apply app_inj_tail in Heq as [<- <-]. exists x, done, []. split_and!.
      * by eapply dfs_root_first.
      * done.
      * intros y Hy. destruct Hinv as (_ & Hpart & _).
        destruct (Hpart y (Hdone y Hy)) as (p & c' & q & -> & ? & _).
        exists c'. split; [apply elem_of_app; right; left | done].
    + rewrite app_comm_cons, app_assoc in Heq. apply app_inj_tail in Heq as [Heq _].
      by apply (Hext _ Hord pre c post).
Qed.

(** The discovered id sets are in discovery order over the endpoints. *)
Lemma discovered_ordered : discovery_ordered (connectedNodeIds links) (discovered links).
Proof.
  pose proof (discovered_fuel_enough links 0) as Hd. unfold discovered_fuel in Hd.
  destruct (fold_opt _ (connectedNodeIds links) (JSSet.empty, [])) as [[seen D] |] eqn:Hf; [| done].
  cbn in Hd. injection Hd as <-.
  apply (discover_fold_ordered _ _ [] _ _) in Hf; [done | | |].
  - split_and!; cbn; unfold JSSet.empty; [by intros ? ? ?%elem_of_nil |
      by intros ? ?%elem_of_nil | by intros ? ? ?%elem_of_nil | by intros ? ?%elem_of_nil].
  - by intros y ?%elem_of_nil.
  - intros pre c post Heq. by destruct pre.
Qed.

(** ** Placement *)

Lemma fold_place_push nm start (D : list JSSet.t) rtn :
  (∀ c, c ∈ D → start_in start c = false) →
  fold_left (place nm start) D rtn = rtn ++ (toAdd nm <$> D).
Proof.
  revert rtn. induction D as [| c D IH]; intros rtn HD; cbn.
  - by rewrite app_nil_r.
  - rewrite IH; [| intros c' Hc'; apply HD; by right].
    unfold place. rewrite HD; [| left]. by rewrite <- app_assoc.
Qed.

Lemma start_in_Some s c : s ≠ EmptyString → start_in (Some s) c = true ↔ s ∈ c.
Proof.
  intros Hs. unfold start_in. rewrite bool_decide_eq_false_2 by done. cbn. apply has_true.
Qed.

End components.

(** * Claims about [getDisconnectedComponents] *)

Section component_claims.

Implicit Types (nodes : list MyGraphNodeType) (links : list MyGraphLinkType).

Lemma idToNodes_snoc nodes n : idToNodes (nodes ++ [n]) = <[id n := n]> (idToNodes nodes).
Proof. unfold idToNodes. by rewrite fold_left_app. Qed.

(** [idToNodes[a]] is the last node of the list with id [a]. *)
Lemma idToNodes_lookup_Some nodes a n :
  idToNodes nodes !! a = Some n → n ∈ nodes ∧ id n = a.
Proof.
  induction nodes as [| n' nodes IH] using rev_ind; [done |].
  rewrite idToNodes_snoc, lookup_insert. case_decide as Ha.
  - intros [= <-]. split; [apply elem_of_app; right; left | done].
  - intros [? ?]%IH. split; [apply elem_of_app; by left | done].
Qed.

Lemma idToNodes_is_Some nodes a : a ∈ id <$> nodes → is_Some (idToNodes nodes !! a).
Proof.
  induction nodes as [| n' nodes IH] using rev_ind; [by intros ?%elem_of_nil |].
  rewrite fmap_app, elem_of_app, idToNodes_snoc, lookup_insert. cbn.
  case_decide as Ha; [done |]. intros [? | ->%list_elem_of_singleton]; [auto | done].
Qed.

(** Every returned component is [toAdd] of a discovered id set. *)
Lemma elem_of_fold_place nm start (D : list JSSet.t) rtn comp :
  comp ∈ fold_left (place nm start) D rtn ↔ comp ∈ rtn ∨ ∃ c, c ∈ D ∧ comp = toAdd nm c.
Proof.
  revert rtn. induction D as [| c D IH]; intros rtn; cbn [fold_left].
  - split; [auto | intros [? | (c & ?%elem_of_nil & _)]; done].
  - rewrite IH. unfold place. split.
    + intros [Hin | (c' & ? & ?)]; [| right; exists c'; split; [by right | done]].
      destruct (start_in start c).
      * apply elem_of_cons in Hin as [-> | ?]; [right; exists c; split; [left | done] | by left].
      * apply elem_of_app in Hin as [? | ->%list_elem_of_singleton]; [by left |].
        right. exists c. split; [left | done].
    + intros [Hin | (c' & [-> | ?]%elem_of_cons & ->)].
      * left. destruct (start_in start c); [by right | apply elem_of_app; by left].
      * left. destruct (start_in start c); [left | apply elem_of_app; right; left].
      * right. by exists c'.
Qed.

(** The traversal of a single self-loop. *)
Lemma discovered_self_loop (a : string) : discovered [mkLink a a] = [[a]].
Proof.
  assert (JSSet.has a [] = false) as Hhas0 by (by apply has_false, not_elem_of_nil).
  assert (JSSet.has a [a] = true) as Hhas1 by (apply has_true; left).
  assert (JSSet.add a [] = [a]) as Hadd0 by (unfold JSSet.add; by rewrite Hhas0).
  assert (JSSet.add a [a] = [a]) as Hadd1 by (unfold JSSet.add; by rewrite Hhas1).
  unfold discovered, discovered_fuel, connectedNodeIds, convertToEdgeMap, JSSet.empty. cbn.
  rewrite Hadd0, Hadd1, decide_True by done. cbn [length fold_opt].
  unfold discover_step. cbn [fst snd]. unfold JSSet.empty.
  rewrite Hhas0, Hadd0, Hadd1.
  match goal with
  | |- context [dfs ?f ?m ?st ?x] => assert (dfs f m st x = Some ([a], [a])) as ->
  end; [| done].
  cbn. rewrite Hhas0, Hadd0, decide_True by done. cbn. by rewrite Hhas1.
Qed.

(** Traversals started at endpoints only mark endpoints. *)
Lemma discover_fold_endpoints fuel links (ids : list string) (st r : JSSet.t * list JSSet.t) :
  (∀ x, x ∈ ids → x ∈ connectedNodeIds links) →
  (∀ y, y ∈ st.1 → y ∈ connectedNodeIds links) →
  fold_opt (discover_step fuel (convertToEdgeMap links false)) ids st = Some r →
  ∀ y, y ∈ r.1 → y ∈ connectedNodeIds links.
Proof.
  revert st. induction ids as [| x ids IH]; intros st Hids Hst; cbn.
  - by intros [= <-].
  - destruct (discover_step fuel _ st x) as [s' |] eqn:Hstep; [| done].
    apply IH; [intros y Hy; apply Hids; by right |].
    unfold discover_step in Hstep. destruct (JSSet.has x st.1); [by simplify_eq |].
    destruct (dfs fuel _ (st.1, JSSet.empty) x) as [[seen' col] |] eqn:Hd; [| done].
    injection Hstep as <-. cbn. intros y Hy.
    destruct (decide (y ∈ st.1)) as [? | Hny]; [auto |].
    pose proof (dfs_reach _ _ _ _ _ Hd y Hy Hny) as Hrtc.
    apply rtc_inv_r in Hrtc as [-> | (z & _ & Hz)]; [apply Hids; left |].
    apply neighbours_endpoint in Hz. by apply elem_of_list_to_set in Hz.
Qed.

Lemma discovered_endpoints links (c : JSSet.t) y :
  c ∈ discovered links → y ∈ c → y ∈ connectedNodeIds links.
Proof.
  intros Hc Hy. pose proof (discovered_fuel_enough links 0) as Hd. unfold discovered_fuel in Hd.
  destruct (fold_opt _ (connectedNodeIds links) (JSSet.empty, [])) as [[seen D] |] eqn:Hf; [| done].
  cbn in Hd. injection Hd as Heq. rewrite <- Heq in Hc.
  eapply (discover_fold_endpoints _ _ _ _ _ (λ x H, H)); [| done |].
  - by intros z ?%elem_of_nil.
  - cbn. apply discover_fold_invariant in Hf as ((Hsub & _) & _).
    + by eapply Hsub.
    + split_and!; cbn; unfold JSSet.empty; [by intros ? ? ?%elem_of_nil |
        by intros ? ?%elem_of_nil | by intros ? ? ?%elem_of_nil | by intros ? ?%elem_of_nil].
Qed.

(** Every entry of every component is [idToNodes[c]] for an endpoint [c]. *)
Lemma getDisconnectedComponents_entries nodes links start comp entry :
  comp ∈ getDisconnectedComponents nodes links start → entry ∈ comp →
  ∃ c, c ∈ connectedNodeIds links ∧ entry = idToNodes nodes !! c.
Proof.
  rewrite getDisconnectedComponents_discovered, elem_of_fold_place.
  intros [?%elem_of_nil | (cs & Hcs & ->)]; [done |].
  unfold toAdd. intros (c & -> & Hc)%list_elem_of_fmap.
  exists c. split; [by eapply discovered_endpoints | done].
Qed.

(** When every endpoint is the id of a node, every entry is a node of the
    node list. *)
Lemma getDisconnectedComponents_nodes nodes links start comp entry :
  (∀ x, x ∈ connectedNodeIds links → x ∈ id <$> nodes) →
  comp ∈ getDisconnectedComponents nodes links start → entry ∈ comp →
  ∃ n, entry = Some n ∧ n ∈ nodes.
Proof.
  intros Hclosed Hcomp Hentry.
  destruct (getDisconnectedComponents_entries _ _ _ _ _ Hcomp Hentry) as (c & Hc & ->).
  destruct (idToNodes_is_Some nodes c (Hclosed c Hc)) as [n Hn].
  exists n. split; [done |]. by destruct (idToNodes_lookup_Some _ _ _ Hn).
Qed.

(** C2 fails on the source: for the nodes [A] and the edge [A-B] the
    component is [[A, undefined]].  The id ["B"] has no node object, yet it
    contributes an entry, [idToNodes["B"]], which is [undefined]. *)
Lemma getDisconnectedComponents_dangling_entry :
  getDisconnectedComponents [nA] [mkLink "A" "B"] None = [[Some nA; None]].
Proof. vm_compute. reflexivity. Qed.

(** C4, as stated, fails for the empty string as start node: it is not null
    and its component exists, but the empty string is falsy, so the component
    is appended in discovery order instead of being put first. *)
Lemma getDisconnectedComponents_empty_start_not_first :
  EmptyString ∈ connectedNodeIds [mkLink "A" "B"; mkLink EmptyString EmptyString]
  ∧ getDisconnectedComponents [nA; nB; nE]
      [mkLink "A" "B"; mkLink EmptyString EmptyString] (Some EmptyString)
    = [[Some nA; Some nB]; [Some nE]].
Proof.
  split; [| vm_compute; reflexivity].
  apply elem_of_connectedNodeIds. exists (mkLink EmptyString EmptyString).
  split; [right; left | by left].
Qed.

(** C4 (amended): for a start node that is neither absent nor the empty
    string and that is an endpoint of some edge, the result starts with the
    component that holds the start node, a connectivity class, and continues
    with all other components in discovery order: the order of the result
    without start node, in which a component comes before another when its
    first endpoint occurs first among the edge endpoints. *)
Theorem getDisconnectedComponents_start_first nodes links (s : string) :
  s ≠ EmptyString → s ∈ connectedNodeIds links →
  ∃ pre c post,
    discovered links = pre ++ c :: post
    ∧ discovery_ordered (connectedNodeIds links) (pre ++ c :: post)
    ∧ s ∈ c ∧ is_component links c ∧ (∀ c', c' ∈ pre ++ post → s ∉ c')
    ∧ getDisconnectedComponents nodes links None
      = toAdd (idToNodes nodes) <$> (pre ++ c :: post)
    ∧ getDisconnectedComponents nodes links (Some s)
      = toAdd (idToNodes nodes) <$> (c :: pre ++ post).
Proof.
  intros Hs Hin. destruct (discovered_split links s Hin) as (pre & c & post & HD & Hc & Hothers).
  exists pre, c, post. split_and!; [done | | done | | done | |].
  - rewrite <- HD. apply discovered_ordered.
  - apply discovered_is_component. rewrite HD. apply elem_of_app. right. left.
  - rewrite getDisconnectedComponents_discovered, fold_place_push, HD; done.
  - rewrite getDisconnectedComponents_discovered, HD, fold_left_app. cbn [fold_left].
    assert (∀ l : list JSSet.t, (∀ c' : JSSet.t, c' ∈ l → s ∉ c') →
              ∀ c' : JSSet.t, c' ∈ l → start_in (Some s) c' = false) as Hout.
    { intros l Hl c' Hc'. apply not_true_is_false. rewrite start_in_Some by done. by apply Hl. }
    rewrite (fold_place_push _ _ pre); [| apply Hout; intros c' Hc'; apply Hothers, elem_of_app; by left].
    unfold place at 2. rewrite (proj2 (start_in_Some s c Hs) Hc).
    rewrite fold_place_push; [| apply Hout; intros c' Hc'; apply Hothers, elem_of_app; by right].
    cbn. by rewrite fmap_app.
Qed.

Lemma getDisconnectedComponents_start_first_witness :
  ∃ pre c post,
    discovered [mkLink "A" "B"; mkLink "C" "D"] = pre ++ c :: post
    ∧ discovery_ordered (connectedNodeIds [mkLink "A" "B"; mkLink "C" "D"]) (pre ++ c :: post)
    ∧ "D" ∈ c ∧ is_component [mkLink "A" "B"; mkLink "C" "D"] c
    ∧ (∀ c', c' ∈ pre ++ post → "D" ∉ c')
    ∧ getDisconnectedComponents [nA; nB; nC; nD] [mkLink "A" "B"; mkLink "C" "D"] None
      = toAdd (idToNodes [nA; nB; nC; nD]) <$> (pre ++ c :: post)
    ∧ getDisconnectedComponents [nA; nB; nC; nD] [mkLink "A" "B"; mkLink "C" "D"] (Some "D")
      = toAdd (idToNodes [nA; nB; nC; nD]) <$> (c :: pre ++ post).
Proof.
  apply getDisconnectedComponents_start_first.
  - discriminate.
  - vm_compute. do 3 right. left.
Defined.

(** C6: [getDisconnectedComponents] terminates on every input, cycles and
    self-loops included: every level of the recursion of [dfs] marks an
    unseen endpoint, so a recursion depth of one more than the number of
    endpoints always yields the result, and more depth yields the same.  An
    input whose only edge is the self-loop [(a, a)], with [a] in the node
    list, yields exactly one component, which holds only the node [a]. *)
Theorem getDisconnectedComponents_terminates nodes links (start : option string) :
  (∀ k, getDisconnectedComponents_fuel (S (length (connectedNodeIds links)) + k) nodes links start
        = Some (getDisconnectedComponents nodes links start))
  ∧ (∀ a, links = [mkLink a a] → a ∈ id <$> nodes →
       ∃ n, n ∈ nodes ∧ id n = a ∧ getDisconnectedComponents nodes links start = [[Some n]]).
Proof.
  split; [apply getDisconnectedComponents_fuel_enough |].
  intros a -> Ha. destruct (idToNodes_is_Some nodes a Ha) as [n Hn].
  exists n. destruct (idToNodes_lookup_Some _ _ _ Hn) as [? ?]. split_and!; [done | done |].
  rewrite getDisconnectedComponents_discovered, discovered_self_loop. cbn.
  unfold place, toAdd. cbn. rewrite Hn. by destruct (start_in start [a]).
Qed.

Lemma getDisconnectedComponents_terminates_witness :
  ∃ n, n ∈ [nA; nB] ∧ id n = "A"
       ∧ getDisconnectedComponents [nA; nB] [mkLink "A" "A"] (Some "A") = [[Some n]].
Proof.
  apply (proj2 (getDisconnectedComponents_terminates [nA; nB] [mkLink "A" "A"] (Some "A")) "A").
  - reflexivity.
  - left.
Defined.

End component_claims.

(** * Further properties of [convertToEdgeMap] *)

Section edge_map_structure.

Implicit Types (m : EdgeMap) (links : list MyGraphLinkType) (a b k x : string).

Lemma elem_of_first_occurrences (l : list string) x : x ∈ first_occurrences l ↔ x ∈ l.
Proof.
  unfold first_occurrences. rewrite (elem_of_fold_add (λ y : string, y)), list_fmap_id.
  unfold JSSet.empty. rewrite elem_of_nil. tauto.
Qed.

Lemma NoDup_fold_add {A} (f : A → string) (l : list A) (s : JSSet.t) :
  NoDup s → NoDup (fold_left (λ s' z, JSSet.add (f z) s') l s).
Proof.
  revert s. induction l as [| z l IH]; intros s Hs; cbn [fold_left]; [done |].
  by apply IH, NoDup_add.
Qed.

Lemma keys_add_edge src trg m : keys (add_edge src trg m) = JSSet.add src (keys m).
Proof.
  unfold keys, JSSet.add. induction m as [| [k s] m IH]; cbn.
  - by rewrite (proj2 (has_false src []) (not_elem_of_nil src)).
  - destruct (decide (k = src)) as [-> | Hne]; cbn.
    + by rewrite (proj2 (has_true src (src :: m.*1)) (list_elem_of_here _ _)).
    + rewrite IH. destruct (JSSet.has src m.*1) eqn:Hin.
      * apply has_true in Hin.
        by rewrite (proj2 (has_true src (k :: m.*1)) (list_elem_of_further _ _ _ Hin)).
      * apply has_false in Hin. rewrite (proj2 (has_false src (k :: m.*1))); [done |].
        rewrite not_elem_of_cons. split; [congruence | done].
Qed.

Lemma neighbours_add_edge_eq k src trg m :
  neighbours (add_edge src trg m) k =
    if decide (k = src) then JSSet.add trg (neighbours m src) else neighbours m k.
Proof. unfold neighbours at 1. rewrite lookup_add_edge. by case_decide. Qed.

Lemma neighbours_convert_step_eq directed m (l : MyGraphLinkType) a :
  neighbours (convert_step directed m l) a =
    fold_left (λ s x, JSSet.add x s) (inserted directed a l) (neighbours m a).
Proof.
  unfold convert_step, inserted. destruct l as [src trg]. cbn [source target].
  destruct directed; cbn [negb andb]; rewrite !neighbours_add_edge_eq;
    repeat case_decide; repeat case_bool_decide; subst; cbn; congruence.
Qed.

Lemma neighbours_first_occurrences links directed a :
  neighbours (convertToEdgeMap links directed) a
  = first_occurrences (links ≫= inserted directed a).
Proof.
  unfold convertToEdgeMap, first_occurrences.
  change JSSet.empty with (neighbours [] a).
  generalize (@nil (string * JSSet.t)). induction links as [| l links IH]; intros m; [done |].
  cbn [fold_left]. rewrite IH, neighbours_convert_step_eq. cbn. by rewrite fold_left_app.
Qed.

(** X1: the neighbour list of [a] holds exactly the ids the edges insert for
    [a] (the targets of the edges out of [a] and, when [directed] is false,
    the sources of the edges into [a]), once each, in the order of their
    first insertion. *)
Theorem convertToEdgeMap_neighbours_in_insertion_order links directed a :
  neighbours (convertToEdgeMap links directed) a
  = first_occurrences (links ≫= inserted directed a).
Proof. apply neighbours_first_occurrences. Qed.

(** X2: with [directed = true] the neighbour list of [a] holds [b] exactly
    when the list has an edge from [a] to [b]; a reverse edge alone never puts
    [a] among the neighbours of [b]. *)
Theorem convertToEdgeMap_directed_edges links a b :
  b ∈ neighbours (convertToEdgeMap links true) a ↔ mkLink a b ∈ links.
Proof.
  rewrite neighbours_convertToEdgeMap. split.
  - intros (l & Hl & [[<- <-] | [? _]]); [by destruct l | done].
  - intros Hin. exists (mkLink a b). split; [done | by left].
Qed.

Lemma keys_fold_convert directed links m :
  keys (fold_left (convert_step directed) links m) =
    fold_left (λ s x, JSSet.add x s)
      (links ≫= λ l, if directed then [source l] else [source l; target l]) (keys m).
Proof.
  revert m. induction links as [| l links IH]; intros m; [done |].
  cbn [fold_left]. rewrite IH. cbn. rewrite fold_left_app. f_equal.
  unfold convert_step. destruct directed; cbn; by rewrite !keys_add_edge.
Qed.


(** X4: every neighbour list of a built adjacency object is duplicate free,
    and it is non-empty exactly for the keys. *)
Theorem convertToEdgeMap_neighbour_lists links directed a :
  NoDup (neighbours (convertToEdgeMap links directed) a)
  ∧ (neighbours (convertToEdgeMap links directed) a ≠ []
     ↔ a ∈ keys (convertToEdgeMap links directed)).
Proof.
  split.
  - rewrite neighbours_first_occurrences.
    apply (NoDup_fold_add (λ y : string, y)), NoDup_nil_2.
  - split.
    + intros Hne. apply elem_of_keys. unfold neighbours in Hne.
      destruct (lookup_key a _); [by eexists | done].
    + apply convertToEdgeMap_every_key_has_neighbour.
Qed.

End edge_map_structure.

(** * Further properties of [deriveStartNode] *)

Section start_node_more.

Implicit Types (nodes : list MyGraphNodeType) (m : EdgeMap) (x y k : string).

(** The result is determined by the three sets of the rules. *)
Lemma deriveStartNode_ext nodes1 nodes2 m1 m2 :
  (∀ x, x ∈ id <$> nodes1 ↔ x ∈ id <$> nodes2) →
  (∀ k, withOutdegree nodes1 m1 k ↔ withOutdegree nodes2 m2 k) →
  (∀ c, candidate nodes1 m1 c ↔ candidate nodes2 m2 c) →
  deriveStartNode nodes1 m1 = deriveStartNode nodes2 m2.
Proof.
  intros Hids Hout Hcand.
  destruct (deriveStartNode_least nodes1 m1)
    as [([c1 Hc1] & _ & Hl1) | [(Hno1 & Hnone1 & Hl1) | (Hno1 & [k1 Hk1] & _ & Hl1)]];
    destruct (deriveStartNode_least nodes2 m2)
    as [([c2 Hc2] & _ & Hl2) | [(Hno2 & Hnone2 & Hl2) | (Hno2 & [k2 Hk2] & _ & Hl2)]];
    cbv zeta in *.
  - eapply least_unique; [apply (least_ext _ _ _ Hcand), Hl1 | done].
  - destruct (Hno2 c1). by apply Hcand.
  - destruct (Hno2 c1). by apply Hcand.
  - destruct (Hno1 c2). by apply Hcand.
  - eapply least_unique; [apply (least_ext _ _ _ Hids), Hl1 | done].
  - destruct (Hnone1 k2). by apply Hout.
  - destruct (Hno1 c2). by apply Hcand.
  - destruct (Hnone2 k1). by apply Hout.
  - eapply least_unique; [apply (least_ext _ _ _ Hout), Hl1 | done].
Qed.

(** X5: the start node is always an id of the node list, whatever the
    adjacency object holds; it is [undefined] only for the empty node list. *)
Theorem deriveStartNode_is_node_id nodes m :
  match deriveStartNode nodes m with
  | Some x => x ∈ id <$> nodes
  | None => nodes = []
  end.
Proof.
  destruct (deriveStartNode_least nodes m)
    as [(_ & [x Hx] & Hl) | [(_ & Hnone & Hl) | (_ & _ & [x Hx] & Hl)]]; cbv zeta in *.
  - rewrite Hx in *. destruct Hl as [[[? ?] _] _]. done.
  - destruct (deriveStartNode nodes m) as [x |].
    + by destruct Hl as [? _].
    + destruct nodes as [| n nodes]; [done |]. destruct (Hl (id n)). left.
  - rewrite Hx in *. destruct Hl as [[? ?] _]. done.
Qed.

(** X6: the rules [deriveStartNode] follows on an arbitrary adjacency object,
    where a key counts as having an outgoing edge even with an empty
    neighbour list: the smallest id of the node list that is a key and no
    neighbour of such a key, if there is one; otherwise the smallest of all
    node ids if no id of the node list is a key; otherwise the smallest id of
    the node list that is a key. *)
Theorem deriveStartNode_rules_any_map nodes m :
  ((∃ c, candidate nodes m c) →
     ∃ x, deriveStartNode nodes m = Some x ∧ smallest_in (candidate nodes m) x)
  ∧ ((¬ ∃ c, candidate nodes m c) → (¬ ∃ k, withOutdegree nodes m k) →
       least (λ i, i ∈ id <$> nodes) (deriveStartNode nodes m))
  ∧ ((¬ ∃ c, candidate nodes m c) → (∃ k, withOutdegree nodes m k) →
       ∃ x, deriveStartNode nodes m = Some x ∧ smallest_in (withOutdegree nodes m) x).
Proof.
  destruct (deriveStartNode_least nodes m)
    as [(Hc & [x Hx] & Hl) | [(Hno & Hnone & Hl) | (Hno & Hk & [x Hx] & Hl)]];
    cbv zeta in *; split_and!.
  - intros _. exists x. by rewrite Hx in *.
  - intros []. done.
  - intros []. done.
  - intros [c Hc]. by destruct (Hno c).
  - done.
  - intros _ [k Hk]. by destruct (Hnone k).
  - intros [c Hc]. by destruct (Hno c).
  - intros _ []. done.
  - intros _ _. exists x. by rewrite Hx in *.
Qed.

Lemma deriveStartNode_rules_any_map_witness :
  ∃ x, deriveStartNode [nA; nB] [("B", [])] = Some x
       ∧ smallest_in (candidate [nA; nB] [("B", [])]) x.
Proof.
  apply (proj1 (deriveStartNode_rules_any_map [nA; nB] [("B", [])])).
  exists "B". split.
  - split; [right; left | left].
  - intros (k & [_ Hk] & Hx). cbn in Hk. apply list_elem_of_singleton in Hk as ->.
    by apply elem_of_nil in Hx.
Defined.

(** X7: the start node depends only on the set of node ids and on the
    adjacency entries of the keys that are node ids: labels, repeated nodes,
    insertion orders and the entries of keys outside the node list are all
    ignored. *)
Theorem deriveStartNode_depends_on_node_entries nodes1 nodes2 m1 m2 :
  (∀ x, x ∈ id <$> nodes1 ↔ x ∈ id <$> nodes2) →
  (∀ k, k ∈ id <$> nodes1 →
        (k ∈ keys m1 ↔ k ∈ keys m2) ∧ ∀ x, x ∈ neighbours m1 k ↔ x ∈ neighbours m2 k) →
  deriveStartNode nodes1 m1 = deriveStartNode nodes2 m2.
Proof.
  intros Hids Hadj.
  assert (∀ k, withOutdegree nodes1 m1 k ↔ withOutdegree nodes2 m2 k) as Hout.
  { intros k. unfold withOutdegree. rewrite <- Hids. split; intros [Hk ?];
      (split; [done |]); by apply (Hadj k Hk). }
  assert (∀ t, withIndegree nodes1 m1 t ↔ withIndegree nodes2 m2 t) as Hin.
  { intros t. unfold withIndegree. split; intros (k & Hk & Ht); exists k.
    - split; [by apply Hout |]. destruct Hk as [Hk _]. by apply (Hadj k Hk).
    - split; [by apply Hout |]. apply Hout in Hk as [Hk _]. by apply (Hadj k Hk). }
  apply deriveStartNode_ext; [done | done |].
  intros c. unfold candidate. by rewrite Hout, Hin.
Qed.

Lemma deriveStartNode_depends_on_node_entries_witness :
  deriveStartNode [nA; nB] [("A", ["B"]); ("Z", ["A"])]
  = deriveStartNode [mkNode "B" "other"; nA; nA] [("A", ["B"])].
Proof.
  apply deriveStartNode_depends_on_node_entries.
  - intros x. cbn. rewrite !elem_of_cons. tauto.
  - intros k Hk. cbn in Hk. unfold neighbours. cbn.
    apply elem_of_cons in Hk as [-> | Hk]; [| apply list_elem_of_singleton in Hk as ->].
    + rewrite !decide_True by done. split; [| done]. rewrite !elem_of_cons. tauto.
    + rewrite !decide_False by done. cbn. split; [| done].
      rewrite !elem_of_cons, !elem_of_nil. split; [intros [? | [? | []]] | intros [? | []]]; done.
Defined.

End start_node_more.

(** * Further properties of the components and of the extra nodes *)

Section components_more.

Implicit Types (nodes : list MyGraphNodeType) (links : list MyGraphLinkType).
Implicit Types (start : option string) (comp : list (option MyGraphNodeType)).

Lemma getExtraNodes_filter nodes links :
  getExtraNodes nodes links = filter (λ n, id n ∉ connectedNodeIds links) nodes.
Proof.
  unfold getExtraNodes. cbv zeta.
  assert (∀ rtn : list MyGraphNodeType,
            fold_left (λ rtn node, if JSSet.has (id node) (connectedNodeIds links)
                                   then rtn else rtn ++ [node]) nodes rtn
            = rtn ++ filter (λ n, id n ∉ connectedNodeIds links) nodes) as Hgen; [| apply Hgen].
  induction nodes as [| n nodes IH]; intros rtn; cbn [fold_left].
  - by rewrite app_nil_r.
  - rewrite IH, filter_cons. destruct (JSSet.has (id n) (connectedNodeIds links)) eqn:Hn.
    + apply has_true in Hn. by rewrite decide_False by tauto.
    + apply has_false in Hn. by rewrite decide_True, <- app_assoc by done.
Qed.

(** X8: [getExtraNodes] returns, in input order, exactly the nodes whose id
    is no endpoint of an edge. *)
Theorem getExtraNodes_isolated nodes links :
  getExtraNodes nodes links = filter (λ n, id n ∉ connectedNodeIds links) nodes.
Proof. apply getExtraNodes_filter. Qed.

Lemma fold_place_Permutation nm start (D : list JSSet.t) rtn :
  fold_left (place nm start) D rtn ≡ₚ rtn ++ (toAdd nm <$> D).
Proof.
  revert rtn. induction D as [| c D IH]; intros rtn; cbn.
  - by rewrite app_nil_r.
  - rewrite IH. unfold place. destruct (start_in start c).
    + by rewrite <- Permutation_middle.
    + by rewrite <- app_assoc.
Qed.

Lemma getDisconnectedComponents_Permutation nodes links start :
  getDisconnectedComponents nodes links start ≡ₚ toAdd (idToNodes nodes) <$> discovered links.
Proof. by rewrite getDisconnectedComponents_discovered, fold_place_Permutation. Qed.

Lemma elem_of_getDisconnectedComponents nodes links start comp :
  comp ∈ getDisconnectedComponents nodes links start ↔
    ∃ c, c ∈ discovered links ∧ comp = toAdd (idToNodes nodes) c.
Proof.
  rewrite getDisconnectedComponents_discovered, elem_of_fold_place, elem_of_nil. tauto.
Qed.

Lemma elem_of_toAdd nodes (c : JSSet.t) (n : MyGraphNodeType) :
  Some n ∈ toAdd (idToNodes nodes) c ↔ id n ∈ c ∧ idToNodes nodes !! id n = Some n.
Proof.
  unfold toAdd. rewrite list_elem_of_fmap. split.
  - intros (x & Hx & Hin). symmetry in Hx.
    destruct (idToNodes_lookup_Some _ _ _ Hx) as [_ <-]. done.
  - intros [? ?]. by exists (id n).
Qed.

(** ** The id sets partition the endpoints *)

Lemma dfs_collected_NoDup fuel m (st r : JSSet.t * JSSet.t) (x : string) :
  dfs fuel m st x = Some r → NoDup st.2 → NoDup r.2.
Proof.
  revert st x r. induction fuel as [| fuel IH]; intros st x r; [done |]. cbn.
  destruct (JSSet.has x st.1); [by intros [= <-] |].
  destruct (lookup_key x m) as [children |].
  - intros Hr Hnd.
    assert (∀ l s r0, fold_opt (dfs fuel m) l s = Some r0 → NoDup s.2 → NoDup r0.2) as Hfold.
    { apply (fold_opt_invariant (dfs fuel m) (λ a b, NoDup a.2 → NoDup b.2)).
      - by intros a.
      - intros a b c ? ? ?. auto.
      - intros s a r0. apply IH. }
    apply (Hfold _ _ _ Hr). by apply NoDup_add.
  - intros [= <-] Hnd. by apply NoDup_add.
Qed.

Lemma discover_fold_NoDup links fuel (ids : list string) (st r : JSSet.t * list JSSet.t) :
  discovery_invariant links st → NoDup (mjoin st.2) →
  fold_opt (discover_step fuel (convertToEdgeMap links false)) ids st = Some r →
  NoDup (mjoin r.2).
Proof.
  revert st. induction ids as [| x ids IH]; intros st Hinv Hnd; cbn.
  - by intros [= <-].
  - destruct (discover_step fuel _ st x) as [s' |] eqn:Hstep; [| done].
    destruct (discover_step_invariant _ _ _ _ _ Hinv Hstep) as (Hinv' & _ & _).
    apply IH; [done |]. unfold discover_step in Hstep.
    destruct (JSSet.has x st.1); [by simplify_eq |].
    destruct (dfs fuel _ (st.1, JSSet.empty) x) as [[seen' col] |] eqn:Hd; [| done].
    injection Hstep as <-. cbn [snd].
    assert (mjoin (st.2 ++ [col]) = mjoin st.2 ++ col) as ->.
    { etrans; [apply join_app |]. cbn. by rewrite app_nil_r. }
    destruct (dfs_grows _ _ _ _ _ Hd) as [(new & Hnew & _ & Hc) _]. cbn [fst snd] in *.
    apply NoDup_app. split_and!; [done | |].
    + intros y (c & Hy & Hcin)%list_elem_of_join Hcol.
      destruct Hinv as (Hsub & _). apply (Hnew y); [| by eapply Hsub].
      apply Hc in Hcol as [?%elem_of_nil | ?]; done.
    + apply (dfs_collected_NoDup _ _ _ _ _ Hd), NoDup_nil_2.
Qed.

Lemma discovered_partition links : mjoin (discovered links) ≡ₚ connectedNodeIds links.
Proof.
  apply NoDup_Permutation.
  - pose proof (discovered_fuel_enough links 0) as Hd. unfold discovered_fuel in Hd.
    destruct (fold_opt _ (connectedNodeIds links) (JSSet.empty, [])) as [[seen D] |] eqn:Hf;
      [| done].
    cbn in Hd. injection Hd as <-.
    apply discover_fold_NoDup in Hf; [done | | apply NoDup_nil_2].
    split_and!; cbn; unfold JSSet.empty; [by intros ? ? ?%elem_of_nil |
      by intros ? ?%elem_of_nil | by intros ? ? ?%elem_of_nil | by intros ? ?%elem_of_nil].
  - apply NoDup_connectedNodeIds.
  - intros y. rewrite list_elem_of_join. split.
    + intros (c & ? & ?). by eapply discovered_endpoints.
    + intros (pre & c & post & Heq & ? & _)%discovered_split.
      exists c. split; [done |]. rewrite Heq. apply elem_of_app. right. left.
Qed.

(** X9: over all components together, every edge endpoint contributes
    exactly one entry, [idToNodes] of that endpoint, and nothing else does:
    the entries of the components are a permutation of the entries of the
    endpoint list. *)
Theorem getDisconnectedComponents_entries_once nodes links start :
  mjoin (getDisconnectedComponents nodes links start)
  ≡ₚ (λ c, idToNodes nodes !! c) <$> connectedNodeIds links.
Proof.
  rewrite getDisconnectedComponents_Permutation, <- discovered_partition.
  generalize (discovered links). intros D. induction D as [| c D IH]; [done |].
  cbn. by rewrite fmap_app, IH.
Qed.

(** X10: a component is a connectivity class: beside a node [n] it holds
    exactly the nodes that [idToNodes] keeps and whose id is connected to the
    id of [n] by edges, in either direction. *)
Theorem getDisconnectedComponents_connectivity_class nodes links start comp
    (n n' : MyGraphNodeType) :
  comp ∈ getDisconnectedComponents nodes links start → Some n ∈ comp →
  Some n' ∈ comp ↔ idToNodes nodes !! id n' = Some n' ∧ connected links (id n) (id n').
Proof.
  intros (c & Hc & ->)%elem_of_getDisconnectedComponents [Hn _]%elem_of_toAdd.
  destruct (discovered_is_component links c Hc) as [_ Hclass].
  rewrite elem_of_toAdd, (Hclass (id n) Hn). tauto.
Qed.

Lemma getDisconnectedComponents_connectivity_class_witness :
  Some nA ∈ [Some nC; Some nA; Some nB]
  ↔ idToNodes [nA; nB; nC; nD] !! id nA = Some nA
    ∧ connected [mkLink "C" "A"; mkLink "A" "B"] (id nC) (id nA).
Proof.
  apply (getDisconnectedComponents_connectivity_class [nA; nB; nC; nD]
           [mkLink "C" "A"; mkLink "A" "B"] None).
  - vm_compute. left.
  - left.
Defined.

(** X11: the start node only reorders: for every start node the result is a
    permutation of the result without start node. *)
Theorem getDisconnectedComponents_start_permutes nodes links start :
  getDisconnectedComponents nodes links start ≡ₚ getDisconnectedComponents nodes links None.
Proof. by rewrite !getDisconnectedComponents_Permutation. Qed.

(** X12: a start node that is the empty string or no endpoint of an edge
    (an isolated or unknown id) changes nothing: the result is the one
    without start node. *)
Theorem getDisconnectedComponents_start_ignored nodes links (s : string) :
  s = EmptyString ∨ s ∉ connectedNodeIds links →
  getDisconnectedComponents nodes links (Some s) = getDisconnectedComponents nodes links None.
Proof.
  intros Hs. rewrite !getDisconnectedComponents_discovered, !fold_place_push; [done | done |].
  intros c Hc. unfold start_in. destruct Hs as [-> | Hs]; [done |].
  apply andb_false_intro2, has_false. intros Hin. apply Hs. by eapply discovered_endpoints.
Qed.

Lemma getDisconnectedComponents_start_ignored_witness :
  getDisconnectedComponents [nA; nB; nC] [mkLink "A" "B"] (Some "C")
  = getDisconnectedComponents [nA; nB; nC] [mkLink "A" "B"] None.
Proof.
  apply getDisconnectedComponents_start_ignored. right. vm_compute.
  intros [? | [? | ?%elem_of_nil]%elem_of_cons]%elem_of_cons; done.
Defined.

(** X13: no component is empty, and the result is empty exactly for the
    empty edge list, whatever the nodes. *)
Theorem getDisconnectedComponents_non_empty nodes links start :
  Forall (λ comp, comp ≠ []) (getDisconnectedComponents nodes links start)
  ∧ (getDisconnectedComponents nodes links start = [] ↔ links = []).
Proof.
  split.
  - apply Forall_forall. intros comp (c & Hc & ->)%elem_of_getDisconnectedComponents.
    destruct (discovered_is_component links c Hc) as [Hne _]. by destruct c.
  - split.
    + intros Hnil. destruct links as [| l links]; [done |]. exfalso.
      destruct (discovered_split (l :: links) (source l)) as (pre & c & post & Heq & _).
      { apply elem_of_connectedNodeIds. exists l. split; [left | by left]. }
      assert (toAdd (idToNodes nodes) c ∈ getDisconnectedComponents nodes (l :: links) start)
        as Hin.
      { apply elem_of_getDisconnectedComponents. exists c. split; [| done].
        rewrite Heq. apply elem_of_app. right. left. }
      rewrite Hnil in Hin. by apply elem_of_nil in Hin.
    + intros ->. done.
Qed.

(** X14: the nodes without edge and the components split the node list:
    a node is returned by [getExtraNodes] exactly when it is in the node list
    and no component holds a node with its id. *)
Theorem getExtraNodes_complement nodes links start (n : MyGraphNodeType) :
  n ∈ getExtraNodes nodes links ↔
    n ∈ nodes ∧ ¬ ∃ comp n', comp ∈ getDisconnectedComponents nodes links start
                            ∧ Some n' ∈ comp ∧ id n' = id n.
Proof.
  rewrite getExtraNodes_filter, list_elem_of_filter. split.
  - intros [Hn Hin]. split; [done |].
    intros (comp & n' & (c & Hc & ->)%elem_of_getDisconnectedComponents
              & [Hn' _]%elem_of_toAdd & Heq).
    apply Hn. rewrite <- Heq. by eapply discovered_endpoints.
  - intros [Hin Hno]. split; [| done]. intros Hend. apply Hno.
    destruct (discovered_split links (id n) Hend) as (pre & c & post & Heq & Hc & _).
    destruct (idToNodes_is_Some nodes (id n)) as [n' Hn']; [by apply list_elem_of_fmap_2 |].
    destruct (idToNodes_lookup_Some _ _ _ Hn') as [_ Hid].
    exists (toAdd (idToNodes nodes) c), n'. split_and!; [| | done].
    + apply elem_of_getDisconnectedComponents. exists c. split; [| done].
      rewrite Heq. apply elem_of_app. right. left.
    + apply elem_of_toAdd. by rewrite Hid.
Qed.

End components_more.

(** * Properties of [isStartNodeInComponent] *)

Section start_in_component.

Implicit Types (nodes : list MyGraphNodeType) (links : list MyGraphLinkType) (s : string).

(** X15: [isStartNodeInComponent] answers [true] when an entry with the id
    comes before any [undefined] entry, [false] when no entry is [undefined]
    and none has the id, and throws when an [undefined] entry comes before any
    entry with the id. *)
Theorem isStartNodeInComponent_outcomes s (comp : list (option MyGraphNodeType)) :
  match isStartNodeInComponent s comp with
  | Some true =>
      ∃ pre n post, comp = (Some <$> pre) ++ Some n :: post ∧ id n = s ∧ s ∉ id <$> pre
  | Some false => ∃ l, comp = Some <$> l ∧ s ∉ id <$> l
  | None => ∃ pre post, comp = (Some <$> pre) ++ None :: post ∧ s ∉ id <$> pre
  end.
Proof.
  induction comp as [| [n |] comp IH]; cbn.
  - exists []. split; [done | apply not_elem_of_nil].
  - case_bool_decide as Hn.
    + exists [], n, comp. split_and!; [done | done | apply not_elem_of_nil].
    + destruct (isStartNodeInComponent s comp) as [[|] |].
      * destruct IH as (pre & n' & post & -> & ? & ?). exists (n :: pre), n', post.
        split_and!; [done | done |]. cbn. rewrite not_elem_of_cons. done.
      * destruct IH as (l & -> & ?). exists (n :: l). split; [done |].
        cbn. rewrite not_elem_of_cons. done.
      * destruct IH as (pre & post & -> & ?). exists (n :: pre), post. split; [done |].
        cbn. rewrite not_elem_of_cons. done.
  - exists [], comp. split; [done | apply not_elem_of_nil].
Qed.

Lemma isStartNodeInComponent_toAdd nodes (c : JSSet.t) s :
  (∀ x, x ∈ c → x ∈ id <$> nodes) →
  isStartNodeInComponent s (toAdd (idToNodes nodes) c) = Some (bool_decide (s ∈ c)).
Proof.
  unfold toAdd. induction c as [| x c IH]; intros Hc; cbn.
  - by rewrite bool_decide_eq_false_2 by apply not_elem_of_nil.
  - destruct (idToNodes_is_Some nodes x) as [n Hn]; [apply Hc; left |].
    destruct (idToNodes_lookup_Some _ _ _ Hn) as [_ Hid]. rewrite Hn.
    destruct (decide (id n = s)) as [Hx | Hx].
    + rewrite (bool_decide_eq_true_2 (id n = s)) by done.
      rewrite bool_decide_eq_true_2; [done |]. rewrite <- Hx, Hid. left.
    + rewrite (bool_decide_eq_false_2 (id n = s)) by done.
      rewrite IH; [| intros y Hy; apply Hc; by right]. f_equal. apply bool_decide_ext.
      rewrite elem_of_cons. split; [auto |]. intros [-> | ?]; [congruence | done].
Qed.

Lemma getDisconnectedComponents_Some_split nodes links s (pre post : list JSSet.t) (c : JSSet.t) :
  s ≠ EmptyString → discovered links = pre ++ c :: post → s ∈ c →
  (∀ c' : JSSet.t, c' ∈ pre ++ post → s ∉ c') →
  getDisconnectedComponents nodes links (Some s)
  = toAdd (idToNodes nodes) c :: (toAdd (idToNodes nodes) <$> (pre ++ post)).
Proof.
  intros Hs HD Hc Hothers.
  rewrite getDisconnectedComponents_discovered, HD, fold_left_app. cbn [fold_left].
  assert (∀ l : list JSSet.t, (∀ c' : JSSet.t, c' ∈ l → s ∉ c') →
            ∀ c' : JSSet.t, c' ∈ l → start_in (Some s) c' = false) as Hout.
  { intros l Hl c' Hc'. apply not_true_is_false. rewrite start_in_Some by done. by apply Hl. }
  rewrite (fold_place_push _ _ pre); [| apply Hout; intros c' Hc'; apply Hothers, elem_of_app; by left].
  unfold place at 2. rewrite (proj2 (start_in_Some s c Hs) Hc).
  rewrite fold_place_push; [| apply Hout; intros c' Hc'; apply Hothers, elem_of_app; by right].
  cbn. by rewrite fmap_app.
Qed.

(** X16: when every edge endpoint is the id of a node, and the start node is
    a non-empty endpoint, [isStartNodeInComponent] never throws on the
    components, answers [true] on the first one and [false] on all others. *)
Theorem isStartNodeInComponent_first_only nodes links s :
  endpoints_are_nodes nodes links → s ≠ EmptyString → s ∈ connectedNodeIds links →
  ∃ first rest,
    getDisconnectedComponents nodes links (Some s) = first :: rest
    ∧ isStartNodeInComponent s first = Some true
    ∧ ∀ comp, comp ∈ rest → isStartNodeInComponent s comp = Some false.
Proof.
  intros Hnodes Hs Hin.
  destruct (discovered_split links s Hin) as (pre & c & post & HD & Hc & Hothers).
  assert (∀ c' : JSSet.t, c' ∈ discovered links → ∀ x, x ∈ c' → x ∈ id <$> nodes) as Hsub.
  { intros c' Hc' x Hx. apply Hnodes. by eapply discovered_endpoints. }
  eexists _, _. split; [by apply getDisconnectedComponents_Some_split |]. split.
  - rewrite isStartNodeInComponent_toAdd, bool_decide_eq_true_2; [done | done |].
    apply Hsub. rewrite HD. apply elem_of_app. right. left.
  - intros comp (c' & -> & Hc')%list_elem_of_fmap.
    rewrite isStartNodeInComponent_toAdd, bool_decide_eq_false_2; [done | by apply Hothers |].
    apply Hsub. rewrite HD. rewrite !elem_of_app in *. rewrite elem_of_cons. tauto.
Qed.

Lemma isStartNodeInComponent_first_only_witness :
  ∃ first rest,
    getDisconnectedComponents [nA; nB; nC; nD] [mkLink "A" "B"; mkLink "C" "D"] (Some "D")
    = first :: rest
    ∧ isStartNodeInComponent "D" first = Some true
    ∧ ∀ comp, comp ∈ rest → isStartNodeInComponent "D" comp = Some false.
Proof.
  apply isStartNodeInComponent_first_only.
  - intros x. vm_compute. done.
  - discriminate.
  - vm_compute. do 3 right. left.
Defined.

End start_in_component.

(** * Further properties of [removeRepeatedEdges] *)

Section dedupe_more.

Implicit Types (links pre post : list MyGraphLinkType) (e : MyGraphLinkType).

(** X17: the output is a sublist of the input: edges are only dropped, never
    added, changed or reordered. *)
Theorem removeRepeatedEdges_sublist links : removeRepeatedEdges links `sublist_of` links.
Proof.
  induction links as [| e links IH] using rev_ind; [done |].
  rewrite removeRepeatedEdges_snoc. case_bool_decide.
  - by apply sublist_inserts_r.
  - by apply sublist_app.
Qed.

(** X18: the edge lists that [removeRepeatedEdges] returns unchanged are
    exactly those in which no edge has the key of an earlier edge as its back
    key; exact repeats of an edge do not matter. *)
Theorem removeRepeatedEdges_unchanged_iff links :
  removeRepeatedEdges links = links ↔ no_earlier_mirror_key links.
Proof.
  split.
  - intros Heq l1 e l2 Hsplit. rewrite Hsplit in Heq.
    by apply removeRepeatedEdges_split in Heq.
  - induction links as [| e links IH] using rev_ind; [done |]. intros Hno.
    rewrite removeRepeatedEdges_snoc, IH.
    + rewrite bool_decide_eq_false_2; [done |]. by apply (Hno links e []).
    + intros l1 e' l2 ->. apply (Hno l1 e' (l2 ++ [e])). by rewrite <- app_assoc.
Qed.

Lemma add_present (x : string) (s : JSSet.t) : x ∈ s → JSSet.add x s = s.
Proof. intros Hx. unfold JSSet.add. by rewrite (proj2 (has_true x s) Hx). Qed.

Lemma add_edge_present (src trg : string) (m : EdgeMap) :
  trg ∈ neighbours m src → add_edge src trg m = m.
Proof.
  unfold neighbours. induction m as [| [k s] m IH]; cbn.
  - by intros ?%elem_of_nil.
  - case_decide as Hk; cbn.
    + intros Hin. by rewrite add_present.
    + intros Hin. by rewrite IH.
Qed.

Lemma keys_faithful_app_l pre post : keys_faithful (pre ++ post) → keys_faithful pre.
Proof. intros Hf e e' He He'. apply Hf; apply elem_of_app; by left. Qed.

Lemma removeRepeatedEdges_adjacency links :
  keys_faithful links →
  convertToEdgeMap (removeRepeatedEdges links) false = convertToEdgeMap links false
  ∧ connectedNodeIds (removeRepeatedEdges links) = connectedNodeIds links.
Proof.
  induction links as [| e links IH] using rev_ind; [done |]. intros Hf.
  destruct (IH (keys_faithful_app_l _ _ Hf)) as [IHm IHc].
  rewrite removeRepeatedEdges_snoc. unfold convertToEdgeMap, connectedNodeIds in *.
  case_bool_decide as Hd.
  - apply (backKey_recorded_iff links e Hf), removeRepeatedEdges_elem_of in Hd.
    assert (joined links (source e) (target e)) as Hj.
    { exists (mirror e). split; [done |]. right. done. }
    rewrite !fold_left_app. cbn [fold_left]. rewrite IHm, IHc. split.
    + unfold convert_step. cbn.
      fold (convertToEdgeMap links false).
      rewrite (add_edge_present (source e)); [| by apply neighbours_joined].
      rewrite add_edge_present; [done |]. by apply neighbours_joined, joined_sym.
    + fold (connectedNodeIds links).
      rewrite (add_present (source e)), add_present; [done | |];
        apply elem_of_connectedNodeIds; exists (mirror e); cbn; auto.
  - rewrite !fold_left_app. cbn [fold_left]. by rewrite IHm, IHc.
Qed.

(** X19: when the keys are faithful (no two different pairs of ids are
    joined into the same key string), dropping the mirrored edges changes
    neither the undirected adjacency object, nor the endpoint list, nor the
    components, nor the nodes without edge. *)
Theorem removeRepeatedEdges_preserves_layout links nodes start :
  keys_faithful links →
  convertToEdgeMap (removeRepeatedEdges links) false = convertToEdgeMap links false
  ∧ connectedNodeIds (removeRepeatedEdges links) = connectedNodeIds links
  ∧ getDisconnectedComponents nodes (removeRepeatedEdges links) start
    = getDisconnectedComponents nodes links start
  ∧ getExtraNodes nodes (removeRepeatedEdges links) = getExtraNodes nodes links.
Proof.
  intros Hf. destruct (removeRepeatedEdges_adjacency links Hf) as [Hm Hc].
  split_and!; [done | done | |].
  - unfold getDisconnectedComponents, getDisconnectedComponents_fuel. by rewrite Hm, Hc.
  - unfold getExtraNodes. by rewrite Hc.
Qed.

Lemma removeRepeatedEdges_preserves_layout_witness :
  convertToEdgeMap (removeRepeatedEdges [mkLink "A" "B"; mkLink "B" "A"; mkLink "B" "C"]) false
  = convertToEdgeMap [mkLink "A" "B"; mkLink "B" "A"; mkLink "B" "C"] false
  ∧ connectedNodeIds (removeRepeatedEdges [mkLink "A" "B"; mkLink "B" "A"; mkLink "B" "C"])
    = connectedNodeIds [mkLink "A" "B"; mkLink "B" "A"; mkLink "B" "C"]
  ∧ getDisconnectedComponents [nA; nB; nC]
      (removeRepeatedEdges [mkLink "A" "B"; mkLink "B" "A"; mkLink "B" "C"]) None
    = getDisconnectedComponents [nA; nB; nC]
        [mkLink "A" "B"; mkLink "B" "A"; mkLink "B" "C"] None
  ∧ getExtraNodes [nA; nB; nC] (removeRepeatedEdges [mkLink "A" "B"; mkLink "B" "A"; mkLink "B" "C"])
    = getExtraNodes [nA; nB; nC] [mkLink "A" "B"; mkLink "B" "A"; mkLink "B" "C"].
Proof.
  apply removeRepeatedEdges_preserves_layout.
  apply dash_free_links_faithful. reflexivity.
Defined.

End dedupe_more.

(** * Compositions *)

Section compositions.

Implicit Types (nodes : list MyGraphNodeType) (links : list MyGraphLinkType).

Lemma keys_convertToEdgeMap_undirected links :
  keys (convertToEdgeMap links false) = connectedNodeIds links.
Proof.
  unfold convertToEdgeMap. rewrite keys_fold_convert. unfold connectedNodeIds.
  change (keys []) with JSSet.empty.
  generalize JSSet.empty. induction links as [| l links IH]; intros s; [done |].
  cbn. by rewrite IH.
Qed.

(** X20: on the undirected adjacency object of a graph whose edge endpoints
    are all nodes, no node is a candidate, so [deriveStartNode] returns the
    smallest id that is an endpoint of an edge; without edges it returns the
    smallest of all node ids. *)
Theorem deriveStartNode_undirected nodes links :
  endpoints_are_nodes nodes links →
  (links ≠ [] →
     ∃ x, deriveStartNode nodes (convertToEdgeMap links false) = Some x
          ∧ smallest_in (λ i, i ∈ connectedNodeIds links) x)
  ∧ (links = [] →
     least (λ i, i ∈ id <$> nodes) (deriveStartNode nodes (convertToEdgeMap links false))).
Proof.
  intros Hnodes. set (m := convertToEdgeMap links false).
  assert (∀ k, withOutdegree nodes m k ↔ k ∈ connectedNodeIds links) as Hout.
  { intros k. unfold withOutdegree, m. rewrite keys_convertToEdgeMap_undirected.
    split; [tauto |]. intros Hk. split; [by apply Hnodes | done]. }
  assert (∀ c, ¬ candidate nodes m c) as Hno.
  { intros c [Hc Hin]. apply Hin. apply Hout in Hc as Hend.
    destruct Hc as [_ Hkey]. apply convertToEdgeMap_every_key_has_neighbour in Hkey.
    destruct (neighbours m c) as [| t ts] eqn:Hn; [done |].
    assert (joined links c t) as Hj by (apply neighbours_joined; fold m; rewrite Hn; left).
    exists t. split.
    - apply Hout, elem_of_connectedNodeIds.
      destruct Hj as (l & ? & [[_ <-] | [<- _]]); exists l; auto.
    - by apply neighbours_joined, joined_sym. }
  destruct (deriveStartNode_least nodes m)
    as [([c Hc] & _) | [(_ & Hnone & Hl) | (_ & [k Hk] & [x Hx] & Hl)]]; cbv zeta in *.
  - by destruct (Hno c).
  - split; [| done]. intros Hne. destruct links as [| l links']; [done |].
    destruct (Hnone (source l)). apply Hout, elem_of_connectedNodeIds.
    exists l. split; [left | by left].
  - split.
    + intros _. exists x. split; [done |]. rewrite Hx in Hl.
      destruct Hl as [Hin Hmin]. split; [by apply Hout |]. intros y Hy. by apply Hmin, Hout.
    + intros ->. apply Hout in Hk. by apply elem_of_nil in Hk.
Qed.

Lemma deriveStartNode_undirected_witness :
  ∃ x, deriveStartNode [nA; nB; nC; nD] (convertToEdgeMap [mkLink "C" "B"; mkLink "D" "C"] false)
       = Some x
       ∧ smallest_in (λ i, i ∈ connectedNodeIds [mkLink "C" "B"; mkLink "D" "C"]) x.
Proof.
  assert (endpoints_are_nodes [nA; nB; nC; nD] [mkLink "C" "B"; mkLink "D" "C"]) as Hnodes.
  { intros x.
    change (connectedNodeIds [mkLink "C" "B"; mkLink "D" "C"]) with ["C"; "B"; "D"].
    change (id <$> [nA; nB; nC; nD]) with ["A"; "B"; "C"; "D"].
    rewrite !elem_of_cons. tauto. }
  apply (proj1 (deriveStartNode_undirected [nA; nB; nC; nD]
                  [mkLink "C" "B"; mkLink "D" "C"] Hnodes)).
  discriminate.
Defined.

Lemma connectedNodeIds_head (l : MyGraphLinkType) links :
  ∃ k, connectedNodeIds (l :: links) = source l :: k.
Proof.
  unfold connectedNodeIds. cbn [fold_left].
  assert (∀ (ls : list MyGraphLinkType) (s : JSSet.t),
            ∃ k, fold_left (λ s link, JSSet.add (target link) (JSSet.add (source link) s)) ls s
                 = s ++ k) as Hpre.
  { induction ls as [| l' ls IH]; intros s; cbn [fold_left].
    - exists []. by rewrite app_nil_r.
    - destruct (IH (JSSet.add (target l') (JSSet.add (source l') s))) as [k1 ->].
      destruct (add_prefix (target l') (JSSet.add (source l') s)) as [k2 ->].
      destruct (add_prefix (source l') s) as [k3 ->].
      exists (k3 ++ k2 ++ k1). by rewrite <- !app_assoc. }
  destruct (Hpre links (JSSet.add (target l) (JSSet.add (source l) JSSet.empty))) as [k1 ->].
  destruct (add_prefix (target l) (JSSet.add (source l) JSSet.empty)) as [k2 ->].
  assert (JSSet.add (source l) JSSet.empty = [source l]) as ->.
  { unfold JSSet.add. by rewrite (proj2 (has_false _ JSSet.empty) (not_elem_of_nil _)). }
  by exists (k2 ++ k1).
Qed.

(** X21: without start node, the first entry of the first component is
    [idToNodes] of the source of the first edge: the traversal starts there. *)
Theorem getDisconnectedComponents_starts_at_first_source nodes (l : MyGraphLinkType) links :
  ∃ entries rest,
    getDisconnectedComponents nodes (l :: links) None
    = (idToNodes nodes !! source l :: entries) :: rest.
Proof.
  rewrite getDisconnectedComponents_discovered, fold_place_push by done.
  pose proof (discovered_ordered (l :: links)) as Hord.
  destruct (discovered_split (l :: links) (source l)) as (pre & c & post & Heq & _).
  { apply elem_of_connectedNodeIds. exists l. split; [left | by left]. }
  destruct (discovered (l :: links)) as [| c0 D] eqn:HD; [by destruct pre |].
  destruct (Hord [] c0 D eq_refl) as (x & ids1 & ids2 & Hhead & Hids & Hcov).
  destruct ids1 as [| y ids1].
  - destruct (connectedNodeIds_head l links) as [k Hk].
    rewrite Hk in Hids. injection Hids as <- _.
    destruct c0 as [| x' c0]; [done |]. injection Hhead as ->.
    cbn. by eexists _, _.
  - destruct (Hcov y) as (c' & ?%elem_of_nil & _); [left | done].
Qed.

End compositions.

(** * The extra nodes of [Graph] *)

Section graph_extra_nodes.

Implicit Types (nodes : list MyGraphNodeType) (links : list MyGraphLinkType).
Implicit Types (customNodes : JSSet.t).

Lemma add_absent (x : string) (s : list string) : x ∉ s → JSSet.add x s = s ++ [x].
Proof. intros Hx. unfold JSSet.add. by rewrite (proj2 (has_false x s) Hx). Qed.

Lemma custom_fold nodes (extra : list MyGraphNodeType) customNodes :
  let st := fold_left custom_step customNodes
              (fold_left (λ s n, JSSet.add (id n) s) nodes JSSet.empty, extra) in
  (∀ y, y ∈ st.1 ↔ y ∈ id <$> nodes ∨ y ∈ customNodes)
  ∧ st.2 = extra
           ++ ((λ c, mkNode c c) <$>
                 filter (λ c, c ∉ id <$> nodes) (first_occurrences customNodes : list string)).
Proof.
  induction customNodes as [| c customNodes IH] using rev_ind; cbv zeta.
  - cbn. split; [| by rewrite app_nil_r].
    intros y. rewrite elem_of_fold_add. unfold JSSet.empty. rewrite !elem_of_nil. tauto.
  - cbv zeta in IH. destruct IH as [Hseen Hrtn].
    unfold first_occurrences in *. rewrite !fold_left_app. cbn [fold_left].
    unfold custom_step at 1 3.
    destruct (JSSet.has c _) eqn:Hc; [apply has_true in Hc | apply has_false in Hc].
    + split; [intros y; rewrite Hseen, elem_of_app, list_elem_of_singleton;
              split; [tauto |]; intros [? | [? | ->]]; [tauto | tauto | by apply Hseen] |].
      rewrite Hrtn. f_equal. f_equal. apply Hseen in Hc as [Hc | Hc].
      * destruct (decide (c ∈ fold_left (λ s x, JSSet.add x s) customNodes JSSet.empty))
          as [Hin | Hin]; [by rewrite add_present |].
        rewrite add_absent, filter_app, filter_cons_False, filter_nil, app_nil_r by tauto. done.
      * rewrite add_present; [done |].
        apply (elem_of_fold_add (λ y : string, y)). right. by rewrite list_fmap_id.
    + cbn [fst snd]. split.
      * intros y. rewrite elem_of_add, Hseen, elem_of_app, list_elem_of_singleton. tauto.
      * rewrite Hrtn, <- app_assoc. f_equal.
        assert ((c ∉ id <$> nodes) ∧ c ∉ customNodes) as [Hn1 Hn2].
        { split; intros ?; apply Hc, Hseen; tauto. }
        rewrite add_absent.
        -- by rewrite filter_app, fmap_app, filter_cons_True.
        -- intros Hin%(elem_of_fold_add (λ y : string, y)). rewrite list_fmap_id in Hin.
           destruct Hin as [?%elem_of_nil | ?]; done.
Qed.

(** X22: the extra nodes of [Graph] are the nodes without edge, followed by
    one node, labelled with its id, for every custom id that is not the id of
    a node, in the order of the custom ids; a custom id of an existing node
    adds nothing. *)
Theorem extraNodes_custom nodes links customNodes :
  extraNodes nodes links customNodes
  = getExtraNodes nodes links
    ++ ((λ c, mkNode c c) <$>
          filter (λ c, c ∉ id <$> nodes) (first_occurrences customNodes : list string)).
Proof.
  unfold extraNodes. cbv zeta. destruct customNodes as [| c customNodes].
  - cbn. by rewrite app_nil_r.
  - cbn [JSSet.size length Nat.ltb Nat.leb].
    by destruct (custom_fold nodes (getExtraNodes nodes links) (c :: customNodes)) as [_ ->].
Qed.

End graph_extra_nodes.

(** * The contract of [dfs] *)

Section dfs_contract.

(** X23: on an adjacency object whose neighbours all lie in a finite set [U],
    a call of [dfs] at an id of [U] returns as soon as the recursion depth
    exceeds the number of unseen ids of [U].  It only adds ids: the root is
    seen afterwards, the same new ids are added to [seen] and to
    [collected], after what [collected] held before; every new id is reached
    from the root along neighbours, and all neighbours of a new id are seen
    afterwards. *)
Theorem dfs_marks_reachable (U : gset string) (m : EdgeMap) (fuel : nat)
    (st : JSSet.t * JSSet.t) (x : string) :
  (∀ k c, c ∈ neighbours m k → c ∈ U) → x ∈ U → unseen U st.1 < fuel →
  ∃ r, dfs fuel m st x = Some r
       ∧ grows st r ∧ x ∈ r.1 ∧ st.2 `prefix_of` r.2
       ∧ ∀ z, z ∈ r.1 → z ∉ st.1 →
           rtc (λ a b, b ∈ neighbours m a) x z ∧ ∀ y, y ∈ neighbours m z → y ∈ r.1.
Proof.
  intros HU Hx Hfuel. destruct (dfs_terminates U m HU fuel st x Hx Hfuel) as [r Hr].
  exists r. destruct (dfs_grows _ _ _ _ _ Hr) as [Hg Hin].
  split_and!; [done | done | done | by eapply dfs_collected_prefix |].
  intros z Hz Hnz. split; [by eapply dfs_reach |].
  intros y Hy. by eapply dfs_closed.
Qed.

Lemma dfs_marks_reachable_witness :
  ∃ r, dfs 3 [("A", ["B"]); ("B", ["A"])] ([], []) "A" = Some r
       ∧ grows ([], []) r ∧ "A" ∈ r.1 ∧ [] `prefix_of` r.2
       ∧ ∀ z, z ∈ r.1 → z ∉ [] →
           rtc (λ a b, b ∈ neighbours [("A", ["B"]); ("B", ["A"])] a) "A" z
           ∧ ∀ y, y ∈ neighbours [("A", ["B"]); ("B", ["A"])] z → y ∈ r.1.
Proof.
  apply (dfs_marks_reachable {["A"; "B"]} [("A", ["B"]); ("B", ["A"])] 3 ([], []) "A").
  - intros k c. unfold neighbours. cbn.
    destruct (decide ("A" = k)) as [<- | ?]; [| destruct (decide ("B" = k)) as [<- | ?]]; cbn.
    + intros ->%list_elem_of_singleton. set_solver.
    + intros ->%list_elem_of_singleton. set_solver.
    + by intros ?%elem_of_nil.
  - set_solver.
  - unfold unseen. cbn. vm_compute. lia.
Defined.

End dfs_contract.
